(** * smARtABIC Agent: the retrieval-and-answer pipeline of [app/server.py]

    A shallow embedding of [_keywords_ar], [retrieve_chunks], [build_answer]
    and the [/ask] route, with the Python built-ins they call ([str.strip],
    [str.split], [in], slicing, list indexing, [dict.fromkeys], [sorted]).

    Conventions.
    - A Python [str] is its sequence of Unicode code points: [list N].
    - A finite Python [float] (and the [numpy.float32] scores of the index)
      is the rational number it denotes: [Q]; [==] is [Qeq], [<] is [Qlt].
      Not-a-number scores are outside the model.
    - A Python exception is [None] in the [option] monad.  The only one the
      pipeline can raise on its own is [IndexError]. *)

From Stdlib Require Import QArith.
From stdpp Require Import strings list sorting.

Open Scope N_scope.

(** ** Strings as code-point sequences *)

Abbreviation char := N (only parsing).
Abbreviation str := (list N) (only parsing).

Module Utf8.

(** The source file is UTF-8; its literals are read back into code points. *)
Fixpoint decode (bs : list N) : str :=
  match bs with
  | [] => []
  | b0 :: r0 =>
    if b0 <? 0x80 then b0 :: decode r0
    else match r0 with
    | [] => []
    | b1 :: r1 =>
      if b0 <? 0xE0 then
        N.lor (N.shiftl (N.land b0 0x1F) 6) (N.land b1 0x3F) :: decode r1
      else match r1 with
      | [] => []
      | b2 :: r2 =>
        if b0 <? 0xF0 then
          N.lor (N.shiftl (N.land b0 0x0F) 12)
            (N.lor (N.shiftl (N.land b1 0x3F) 6) (N.land b2 0x3F)) :: decode r2
        else match r2 with
        | [] => []
        | b3 :: r3 =>
          N.lor (N.shiftl (N.land b0 0x07) 18)
            (N.lor (N.shiftl (N.land b1 0x3F) 12)
               (N.lor (N.shiftl (N.land b2 0x3F) 6) (N.land b3 0x3F))) :: decode r3
        end
      end
    end
  end.

Definition lit (s : string) : str :=
  decode (Strings.Ascii.N_of_ascii <$> String.list_ascii_of_string s).

End Utf8.

Notation "'u' s" := (Utf8.lit s%string) (at level 1, s at level 0, only parsing).
Arguments Utf8.lit : simpl never.

(** ** Python built-ins on [str] *)

(** [str.isspace] on one character, which is also the regular expression
    class [\s] on [str] patterns and the separator set of [str.split()] and
    [str.strip()]: the interpreter's white-space table. *)
Definition isspace (c : char) : bool :=
  ((0x09 <=? c) && (c <=? 0x0D)) || ((0x1C <=? c) && (c <=? 0x20))
  || (c =? 0x85) || (c =? 0xA0) || (c =? 0x1680)
  || ((0x2000 <=? c) && (c <=? 0x200A))
  || (c =? 0x2028) || (c =? 0x2029) || (c =? 0x202F) || (c =? 0x205F)
  || (c =? 0x3000).

Fixpoint lstrip (s : str) : str :=
  match s with
  | [] => []
  | c :: s' => if isspace c then lstrip s' else s
  end.

Definition rstrip (s : str) : str := reverse (lstrip (reverse s)).

(** [s.strip()] *)
Definition strip (s : str) : str := rstrip (lstrip s).

(** [s.split()]: the maximal runs of characters that are not white space.
    [tok] is the run being read, last character first. *)
Fixpoint split_from (tok : str) (s : str) : list str :=
  match s with
  | [] => match tok with [] => [] | _ => [reverse tok] end
  | c :: s' =>
    if isspace c then
      match tok with
      | [] => split_from [] s'
      | _ => reverse tok :: split_from [] s'
      end
    else split_from (c :: tok) s'
  end.

Definition split (s : str) : list str := split_from [] s.

Fixpoint startswith (p s : str) : bool :=
  match p, s with
  | [], _ => true
  | _ :: _, [] => false
  | a :: p', b :: s' => (a =? b) && startswith p' s'
  end.

(** [sub in s] *)
Fixpoint contains (sub s : str) : bool :=
  startswith sub s ||
  match s with
  | [] => false
  | _ :: s' => contains sub s'
  end.

(** [s.split(sep)[0]] for a non-empty [sep]: what precedes the first
    occurrence of [sep], all of [s] when there is none. *)
Fixpoint split_head (sep s : str) : str :=
  if startswith sep s then []
  else match s with
       | [] => []
       | c :: s' => c :: split_head sep s'
       end.

(** [l[i]] with Python's negative indices; [None] is [IndexError]. *)
Definition getitem {A} (l : list A) (i : Z) : option A :=
  let n := Z.of_nat (length l) in
  if (0 <=? i)%Z then l !! Z.to_nat i
  else if (- n <=? i)%Z then l !! Z.to_nat (n + i)
  else None.

(** [list(dict.fromkeys(words))]: the dictionary is its keys in insertion
    order (every value is [None]); setting a key that is present keeps its
    place. *)
Definition dict_setkey (d : list str) (k : str) : list str :=
  if decide (k ∈ d) then d else d ++ [k].

Definition dict_fromkeys (words : list str) : list str :=
  foldl dict_setkey [] words.

(** [sorted(l, key=key, reverse=True)]: a stable sort into descending key
    order; elements whose keys do not compare keep their order in [l].
    [lt] is [<] on keys. *)
Section Sorted.
Context {A K : Type} (key : A → K) (lt : K → K → bool).

Fixpoint insert_desc (x : A) (l : list A) : list A :=
  match l with
  | [] => [x]
  | y :: l' => if lt (key x) (key y) then y :: insert_desc x l' else x :: l
  end.

Definition sorted_reverse (l : list A) : list A := foldr insert_desc [] l.
End Sorted.

(** [<] on finite floats. *)
Definition Qltb (x y : Q) : bool := negb (Qle_bool y x).

(** [<] on the tuples [(int, float)] that serve as sort keys: the first
    components that differ decide. *)
Definition tuple_lt (a b : nat * Q) : bool :=
  if negb (a.1 =? b.1)%nat then (a.1 <? b.1)%nat
  else if negb (Qeq_bool a.2 b.2) then Qltb a.2 b.2
  else false.

(** ** Configuration *)

Definition TOP_K : nat := 5.
Definition SEARCH_K : nat := 80.

(** The literal [0.72] is the binary64 number 3242591731706757 / 2^52. *)
Definition DONT_KNOW_THRESHOLD : Q := 3242591731706757 # 4503599627370496.

Definition AR_STOP : list str :=
  [ u"ما"; u"هي"; u"هل"; u"أين"; u"من"; u"في"; u"على"; u"إلى"; u"عن";
    u"هذا"; u"هذه"; u"ذلك"; u"تكون"; u"يكون";
    u"كم"; u"متى"; u"لماذا"; u"كيف"; u"ماهو"; u"ماهي"; u"هو"; u"هي"; u"؟" ].

Definition REFUSAL : str :=
  u"لا أعلم، ليس لدي معلومات كافية عن هذا السؤال حاليًا، " ++
  u"لكنني في مرحلة التطوير.".

Definition splitters : list str := [ u"۔"; u"."; u"!"; u"؟"; [0x0A] ].

(** ** The pipeline *)

Section Pipeline.

(** [str.isalnum] on one character, from the interpreter's Unicode
    database; with [_] it makes the class [\w]. *)
Variable isalnum : char → bool.

(** The corpus [chunks], loaded once at start-up. *)
Variable chunks : list str.

(** [index.search(e5.encode([q], normalize_embeddings=True), k)] as a
    function of the query text [q] and of [k]: the rows [scores[0]] and
    [idxs[0]].  The index library pads both rows to [k] entries, with the
    label [-1] where it found no neighbour. *)
Variable search : str → nat → list Q * list Z.

(** The characters that [re.sub] leaves in place: the complement of the
    class [^\w\s\u0600-\u06FF]. *)
Definition keeps (c : char) : bool :=
  (isalnum c || (c =? 0x5F)) || isspace c || ((0x0600 <=? c) && (c <=? 0x06FF)).

Definition _keywords_ar (text : str) : list str :=
  let text := (λ c, if keeps c then c else 0x20) <$> text in
  let words := strip <$> filter (λ w, (3 ≤ length (strip w))%nat) (split text) in
  let words := filter (λ w, w ∉ AR_STOP) words in
  dict_fromkeys words.

(** The closure [kw_score] of [retrieve_chunks], with its captured [kws]. *)
Definition kw_score (kws : list str) (ch : str) : nat :=
  sum_list ((λ _, 1%nat) <$> filter (λ w, contains w ch = true) kws).

(** [ranked] and [best] of [retrieve_chunks]. *)
Definition ranked (kws : list str) (cands : list (str * Q)) : list (str * Q) :=
  sorted_reverse (λ x, (kw_score kws x.1, x.2)) tuple_lt cands.

Definition retrieve_chunks (question : str) (top_k search_k : nat)
  : option (list str * list Q) :=
  let q := u"query: " ++ strip question in
  let '(scores, idxs) := search q search_k in
  candidates ← mapM (getitem chunks) idxs;
  let cand_scores := scores in
  let kws := _keywords_ar question in
  let best := take top_k (ranked kws (zip candidates cand_scores)) in
  Some (fst <$> best, snd <$> best).

(** [scores[0] if scores else 0.0] *)
Definition best_score_of (scores : list Q) : Q :=
  match scores with
  | s :: _ => s
  | [] => 0
  end.

(** The [for s in splitters] loop with its [break]. *)
Fixpoint first_sentence (spl : list str) (ans : str) : str :=
  match spl with
  | [] => ans
  | s :: spl' =>
    if contains s ans then strip (split_head s ans)
    else first_sentence spl' ans
  end.

Definition build_answer (question : str) (retrieved : list str) (scores : list Q)
  : option (str * Q) :=
  let best_score := best_score_of scores in
  if Qltb best_score DONT_KNOW_THRESHOLD then Some (REFUSAL, best_score)
  else
    top ← getitem retrieved 0;
    let text := strip top in
    let ans := first_sentence splitters text in
    let ans := if (length ans <? 18)%nat then strip (take 220 text) else ans in
    Some (ans, best_score).

Record response := Response {
  question : str;
  answer : str;
  best_score : Q;
  resp_chunks : list str;
  scores : list Q
}.

(** The [/ask] route on the request's [question] field. *)
Definition ask (req_question : str) : option response :=
  let question := strip req_question in
  '(retrieved, scores) ← retrieve_chunks question TOP_K SEARCH_K;
  '(answer, best_score) ← build_answer question retrieved scores;
  Some (Response question answer best_score retrieved scores).

End Pipeline.

(** ** Vocabulary of the specification *)

(** [sub] is a contiguous substring of [s]. *)
Definition occurs (sub s : str) : Prop := ∃ p r, s = p ++ sub ++ r.

(** A token of [str.split()]: not empty and free of white space. *)
Definition token (w : str) : Prop := w ≠ [] ∧ Forall (λ c, isspace c = false) w.

(** White space is interchangeable: [split] only sees where it is. *)
Definition same_or_space (c c' : char) : Prop :=
  c = c' ∨ (isspace c = true ∧ isspace c' = true).

(** What [sorted(..., reverse=True)] establishes between an element [x] and
    a later one [y]: the key of [x] is not below the key of [y]. *)
Definition desc {A K} (key : A → K) (lt : K → K → bool) (x y : A) : Prop :=
  lt (key x) (key y) = false.

(** Keys that [<] does not separate. *)
Definition tied {K} (lt : K → K → bool) (a b : K) : bool :=
  negb (lt a b) && negb (lt b a).

(** Descending order on sort keys: keyword score first, similarity second. *)
Definition key_ge (a b : nat * Q) : Prop :=
  (b.1 < a.1)%nat ∨ (a.1 = b.1 ∧ (b.2 <= a.2)%Q).

(** Keys that [sorted] cannot tell apart. *)
Definition key_eqb (a b : nat * Q) : bool :=
  (a.1 =? b.1)%nat && Qeq_bool a.2 b.2.

(** [rk] is the stable descending arrangement of [input] under [key]: the
    same candidates, keyword score first and similarity second in descending
    order, candidates with equal keys in their order in [input]. *)
Definition reranked (key : str * Q → nat * Q) (input rk : list (str * Q)) : Prop :=
  rk ≡ₚ input
  ∧ StronglySorted (λ x y, key_ge (key x) (key y)) rk
  ∧ ∀ k, filter (λ x, key_eqb (key x) k = true) rk
         = filter (λ x, key_eqb (key x) k = true) input.

(** The delimiter rule of the answer extractor: [cand] is cut out of [text]
    at the leftmost occurrence of the first entry of [spl] that occurs
    anywhere in [text], and trimmed; it is [text] when no entry occurs. *)
Definition delimiter_rule (spl : list str) (text cand : str) : Prop :=
  (∀ (i : nat) (s : str),
     spl !! i = Some s → occurs s text →
     (∀ (j : nat) s', (j < i)%nat → spl !! j = Some s' → ¬ occurs s' text) →
     ∃ before after : str,
       text = before ++ s ++ after
       ∧ (∀ p r : str, text = p ++ s ++ r → (length before ≤ length p)%nat)
       ∧ cand = strip before)
  ∧ ((∀ s, s ∈ spl → ¬ occurs s text) → cand = text).

(** Removal of duplicates that keeps each first occurrence in place. *)
Fixpoint dedup_first (l : list str) : list str :=
  match l with
  | [] => []
  | x :: l' => x :: filter (λ y, y ≠ x) (dedup_first l')
  end.

(** Keyword extraction as the specification words it, steps (a) to (e):
    only word characters and the Arabic block survive step (a). *)
Definition keywords_spec (isalnum : char → bool) (text : str) : list str :=
  let word_or_arabic c :=
    (isalnum c || (c =? 0x5F)) || ((0x0600 <=? c) && (c <=? 0x06FF)) in
  let cleaned := (λ c, if word_or_arabic c then c else 0x20) <$> text in
  let tokens := split cleaned in
  let long := filter (λ w, (3 ≤ length w)%nat) tokens in
  let kept := filter (λ w, w ∉ AR_STOP) long in
  dedup_first kept.

(** ** Instances used in examples *)

(** [str.isalnum] restricted to ASCII letters and digits. *)
Definition isalnum_ascii (c : char) : bool :=
  ((0x30 <=? c) && (c <=? 0x39)) || ((0x41 <=? c) && (c <=? 0x5A))
  || ((0x61 <=? c) && (c <=? 0x7A)).

(** The score the inner-product index writes beside a [-1] label: the
    lowest finite binary32 number. *)
Definition NO_NEIGHBOUR : Q := - (340282346638528859811704183484516925440 # 1).

(** A search over an index that holds [sims], the similarities of its
    vectors in decreasing order with their labels: the hits, then padding
    up to [k] entries. *)
Definition padded_search (hits : list (Q * Z)) (q : str) (k : nat)
  : list Q * list Z :=
  let row := take k (hits ++ replicate (k - length hits) (NO_NEIGHBOUR, (-1)%Z)) in
  (fst <$> row, snd <$> row).

(** A corpus of one chunk and the index over it. *)
Definition corpus1 : list str := [ u"عاصمة فرنسا هي باريس." ].
Definition search1 : str → nat → list Q * list Z :=
  padded_search [(9 # 10, 0%Z)].

(** A corpus of four chunks; the index finds all of them, two with the same
    similarity and the same keyword overlap. *)
Definition corpus4 : list str :=
  [ u"باريس عاصمة فرنسا."; u"برلين عاصمة ألمانيا.";
    u"القاهرة مدينة كبيرة."; u"روما عاصمة إيطاليا." ].
Definition search4 : str → nat → list Q * list Z :=
  padded_search [(9 # 10, 2%Z); (8 # 10, 0%Z); (8 # 10, 1%Z); (8 # 10, 3%Z)].

Definition question1 : str := u"ما هي عاصمة فرنسا؟".
Definition question4 : str := u"ما هي عاصمة فرنسا".

(** A top chunk in which [!] comes before [.]. *)
Definition chunk_two_delimiters : str := u"Wow! This is the capital of France. Yes".

(** A top chunk of 300 letters (no delimiter, no white space). *)
Definition chunk300 : str := replicate 300 0x0628.

(** A top chunk of 300 characters whose first sentence is short and whose
    220th character is a space. *)
Definition chunk_short_head : str :=
  u"Paris." ++ replicate 213 0x61 ++ [0x20] ++ replicate 80 0x62.

(** ** The script of the page *)

(** [escapeHtml] in the script that [_home_html] serves, applied to each
    chunk before it is written into [innerHTML]. A JavaScript string is its
    sequence of UTF-16 code units. [str.replace] with a global pattern (here
    the class of ampersand, less-than, greater-than, double quote and
    apostrophe) and a function rewrites every matching unit [m] to the
    function's value, here the entry of the table under [m], and copies the
    others. *)
Definition escape_class (m : char) : bool :=
  (m =? 0x26) || (m =? 0x3C) || (m =? 0x3E) || (m =? 0x22) || (m =? 0x27).

Definition escape_table (m : char) : str :=
  if m =? 0x26 then u"&amp;"
  else if m =? 0x3C then u"&lt;"
  else if m =? 0x3E then u"&gt;"
  else if m =? 0x22 then u"&quot;"
  else u"&#39;".

Definition escapeHtml (s : str) : str :=
  s ≫= λ m, if escape_class m then escape_table m else [m].

(** ** More instances *)

(** A question made of stop words and short tokens only. *)
Definition question_stop : str := u"ما هي من".

(** A question with white space around it. *)
Definition question_spaced : str := u"  ما هي عاصمة فرنسا  ".

(** An index whose second label is outside the corpus of four chunks. *)
Definition search_bad : str → nat → list Q * list Z :=
  padded_search [(9 # 10, 2%Z); (8 # 10, 4%Z)].

(** * Facts about the built-ins *)

Section Strings.
Implicit Types (s p sub sep tok : str) (c : char).

Lemma startswith_spec p s : startswith p s = true ↔ ∃ r, s = p ++ r.
Proof.
  revert s. induction p as [|a p IH]; intros s; simpl.
  - split; [eauto | done].
  - destruct s as [|b s].
    + split; [done | intros [r Hr]; discriminate].
    + rewrite andb_true_iff, N.eqb_eq, IH. split.
      * intros [-> [r ->]]. eauto.
      * intros [r Hr]. injection Hr as -> ->. eauto.
Qed.

Lemma contains_spec sub s : contains sub s = true ↔ occurs sub s.
Proof.
  unfold occurs. induction s as [|b s IH].
  - simpl. rewrite orb_false_r, startswith_spec. split.
    + intros [r Hr]. exists [], r. done.
    + intros (p & r & Hpr). destruct p; [eauto|discriminate].
  - cbn [contains]. rewrite orb_true_iff, startswith_spec, IH. split.
    + intros [[r ->]|(p & r & ->)].
      * by exists [], r.
      * by exists (b :: p), r.
    + intros ([|a p] & r & Hpr).
      * left. eauto.
      * right. injection Hpr as -> ->. eauto.
Qed.

Lemma contains_false sub s : contains sub s = false ↔ ¬ occurs sub s.
Proof. rewrite <- contains_spec. by destruct (contains sub s). Qed.

(** [split_head] always yields a prefix... *)
Lemma split_head_prefix sep s : split_head sep s `prefix_of` s.
Proof.
  induction s as [|c s IH]; simpl.
  - destruct (startswith sep []); apply prefix_nil.
  - destruct (startswith sep (c :: s)); [apply prefix_nil|].
    by apply prefix_cons.
Qed.

(** ...the whole string when the separator is absent... *)
Lemma split_head_absent sep s : contains sep s = false → split_head sep s = s.
Proof.
  induction s as [|c s IH]; simpl.
  - rewrite orb_false_r. by intros ->.
  - intros [-> Hs]%orb_false_iff. by rewrite IH.
Qed.

(** ...and otherwise what precedes the leftmost occurrence. *)
Lemma split_head_present sep s :
  contains sep s = true →
  ∃ r, s = split_head sep s ++ sep ++ r ∧
       ∀ p' r', s = p' ++ sep ++ r' → (length (split_head sep s) ≤ length p')%nat.
Proof.
  induction s as [|c s IH]; cbn [contains split_head].
  - rewrite orb_false_r. intros Hst. rewrite Hst.
    apply startswith_spec in Hst as [r Hr]. exists r. split; [done|].
    intros; simpl; lia.
  - destruct (startswith sep (c :: s)) eqn:Hst.
    + intros _. apply startswith_spec in Hst as [r Hr]. exists r.
      split; [done|]. intros; simpl; lia.
    + simpl. intros (r & Hr & Hmin)%IH. exists r. split.
      * simpl. by rewrite <- Hr.
      * intros [|a p'] r' Heq.
        -- assert (startswith sep (c :: s) = true) as Habs
             by (apply startswith_spec; eauto).
           congruence.
        -- injection Heq as _ Heq. apply Hmin in Heq. simpl. lia.
Qed.

Lemma lstrip_suffix s : lstrip s `suffix_of` s.
Proof.
  induction s as [|c s IH]; simpl; [done|].
  destruct (isspace c); [by apply suffix_cons_r | done].
Qed.

Lemma rstrip_prefix s : rstrip s `prefix_of` s.
Proof.
  unfold rstrip. destruct (lstrip_suffix (reverse s)) as [k Hk].
  exists (reverse k). rewrite <- reverse_app, <- Hk.
  by rewrite reverse_involutive.
Qed.

Lemma occurs_trans s1 s2 s3 : occurs s1 s2 → occurs s2 s3 → occurs s1 s3.
Proof.
  intros (p & r & ->) (p' & r' & ->). exists (p' ++ p), (r ++ r').
  by rewrite <- !(assoc_L (++)).
Qed.

Lemma prefix_occurs s1 s2 : s1 `prefix_of` s2 → occurs s1 s2.
Proof. intros [k ->]. by exists [], k. Qed.

Lemma suffix_occurs s1 s2 : s1 `suffix_of` s2 → occurs s1 s2.
Proof. intros [k ->]. exists k, []. by rewrite app_nil_r. Qed.

Lemma strip_occurs s : occurs (strip s) s.
Proof.
  unfold strip. eapply occurs_trans.
  - apply prefix_occurs, rstrip_prefix.
  - apply suffix_occurs, lstrip_suffix.
Qed.

(** A string that neither starts nor ends with white space is its own
    [strip]. *)
Lemma lstrip_id c s : isspace c = false → lstrip (c :: s) = c :: s.
Proof. simpl. by intros ->. Qed.

Lemma lstrip_no_space s : Forall (λ c, isspace c = false) s → lstrip s = s.
Proof. destruct 1 as [|c s Hc _]; [done | by apply lstrip_id]. Qed.

Lemma strip_no_space s : Forall (λ c, isspace c = false) s → strip s = s.
Proof.
  intros Hs. unfold strip, rstrip. rewrite (lstrip_no_space s Hs).
  rewrite lstrip_no_space; [apply reverse_involutive|].
  by apply Forall_reverse.
Qed.
End Strings.

Section Split.
Implicit Types (s tok : str) (c : char).

Lemma token_reverse c tok :
  Forall (λ c, isspace c = false) (c :: tok) → token (reverse (c :: tok)).
Proof.
  intros H. split.
  - intros Heq. apply (f_equal length) in Heq.
    rewrite length_reverse in Heq. done.
  - by apply Forall_reverse.
Qed.

Lemma split_from_tokens tok s :
  Forall (λ c, isspace c = false) tok → Forall token (split_from tok s).
Proof.
  revert tok. induction s as [|c s IH]; intros tok Htok; simpl.
  - destruct tok; [done|]. constructor; [by apply token_reverse | done].
  - destruct (isspace c) eqn:Hc.
    + destruct tok; [by apply IH|].
      constructor; [by apply token_reverse | by apply IH].
    + apply IH. by constructor.
Qed.

Lemma split_tokens s : Forall token (split s).
Proof. by apply split_from_tokens. Qed.

Lemma strip_token w : token w → strip w = w.
Proof. intros [_ Hw]. by apply strip_no_space. Qed.

Lemma split_from_same_or_space tok s s' :
  Forall2 same_or_space s s' → split_from tok s = split_from tok s'.
Proof.
  intros H. revert tok. induction H as [|c c' s s' Hc _ IH]; intros tok; [done|].
  simpl. destruct Hc as [<-|[-> ->]].
  - destruct (isspace c); [destruct tok|]; by rewrite ?IH.
  - destruct tok; by rewrite IH.
Qed.
End Split.

Section Dedup.
Implicit Types (l d : list str) (x y : str).

Lemma filter_all (P : str → Prop) `{!∀ x, Decision (P x)} l :
  Forall P l → filter P l = l.
Proof.
  induction 1 as [|x l Hx _ IH]; [done|].
  by rewrite filter_cons_True, IH.
Qed.

Lemma dedup_first_filter (P : str → Prop) `{!∀ x, Decision (P x)} l :
  dedup_first (filter P l) = filter P (dedup_first l).
Proof.
  induction l as [|x l IH]; [done|]. cbn [dedup_first].
  destruct (decide (P x)) as [HP|HP].
  - rewrite !filter_cons_True by done. cbn [dedup_first]. rewrite IH.
    f_equal. rewrite !list_filter_filter. apply list_filter_iff. tauto.
  - rewrite !filter_cons_False by done. rewrite IH.
    symmetry. apply list_filter_filter_l. by intros y Hy ->.
Qed.

Lemma foldl_dict_setkey d l :
  foldl dict_setkey d l = d ++ dedup_first (filter (λ y, y ∉ d) l).
Proof.
  revert d. induction l as [|x l IH]; intros d; simpl.
  - by rewrite app_nil_r.
  - unfold dict_setkey at 2. destruct (decide (x ∈ d)) as [Hx|Hx].
    + rewrite IH. by rewrite filter_cons_False by (by intros H; apply H).
    + rewrite IH, filter_cons_True by done. cbn [dedup_first].
      rewrite <- (assoc_L (++)). simpl. do 2 f_equal.
      rewrite <- dedup_first_filter. f_equal.
      rewrite list_filter_filter. apply list_filter_iff. intros y.
      rewrite not_elem_of_app, list_elem_of_singleton. tauto.
Qed.

(** [dict.fromkeys] removes duplicates and keeps first occurrences in
    place. *)
Lemma dict_fromkeys_dedup l : dict_fromkeys l = dedup_first l.
Proof.
  unfold dict_fromkeys. rewrite foldl_dict_setkey. simpl. f_equal.
  apply filter_all, Forall_forall. intros y _. apply not_elem_of_nil.
Qed.

Lemma elem_of_dedup_first l x : x ∈ dedup_first l ↔ x ∈ l.
Proof.
  induction l as [|y l IH]; [done|]. cbn [dedup_first].
  rewrite !elem_of_cons, list_elem_of_filter, IH.
  destruct (decide (x = y)); tauto.
Qed.

Lemma NoDup_dedup_first l : NoDup (dedup_first l).
Proof.
  induction l as [|x l IH]; [constructor|]. cbn [dedup_first].
  apply NoDup_cons. split; [|by apply NoDup_filter].
  rewrite list_elem_of_filter. by intros [Hne _].
Qed.
End Dedup.

(** * Facts about [sorted(..., reverse=True)] *)

Section SortedFacts.
Context {A K : Type} (key : A → K) (lt : K → K → bool).

(** [<] on keys is a strict weak order. *)
Hypothesis lt_asym : ∀ a b, lt a b = true → lt b a = false.
Hypothesis lt_neg_trans : ∀ a b c, lt a b = false → lt b c = false → lt a c = false.

Implicit Types (x y : A) (l : list A) (k : K).

Lemma lt_irrefl k : lt k k = false.
Proof. destruct (lt k k) eqn:H; [by apply lt_asym in H as H'; congruence | done]. Qed.

Lemma tied_not_lt a b k : tied lt a k = true → tied lt b k = true → lt a b = false.
Proof.
  unfold tied. rewrite !andb_true_iff, !negb_true_iff.
  intros [Hak _] [_ Hkb]. eauto.
Qed.

Lemma tied_refl k : tied lt k k = true.
Proof. unfold tied. by rewrite lt_irrefl. Qed.

Lemma insert_desc_perm x l : insert_desc key lt x l ≡ₚ x :: l.
Proof.
  induction l as [|y l IH]; simpl; [done|].
  destruct (lt (key x) (key y)); [|done].
  rewrite IH. apply Permutation_swap.
Qed.

Lemma sorted_reverse_perm l : sorted_reverse key lt l ≡ₚ l.
Proof.
  induction l as [|x l IH]; simpl; [done|].
  fold (sorted_reverse key lt l). by rewrite insert_desc_perm, IH.
Qed.

Lemma insert_desc_sorted x l :
  StronglySorted (desc key lt) l → StronglySorted (desc key lt) (insert_desc key lt x l).
Proof.
  induction 1 as [|y l Hl IH Hy]; simpl.
  - repeat constructor.
  - destruct (lt (key x) (key y)) eqn:Hxy.
    + constructor; [done|]. rewrite insert_desc_perm.
      constructor; [by apply lt_asym | done].
    + constructor; [by constructor|]. constructor; [done|].
      eapply Forall_impl; [exact Hy|]. intros z Hz. unfold desc in *. eauto.
Qed.

(** The result is in descending key order... *)
Lemma sorted_reverse_sorted l : StronglySorted (desc key lt) (sorted_reverse key lt l).
Proof.
  induction l as [|x l IH]; simpl; [constructor|].
  by apply insert_desc_sorted.
Qed.

Lemma insert_desc_stable k x l :
  filter (λ y, tied lt (key y) k = true) (insert_desc key lt x l)
  = filter (λ y, tied lt (key y) k = true) (x :: l).
Proof.
  induction l as [|y l IH]; simpl; [done|].
  destruct (lt (key x) (key y)) eqn:Hxy; [|done].
  rewrite (filter_cons _ y), IH, !(filter_cons _ x), (filter_cons _ y).
  destruct (decide (tied lt (key x) k = true)) as [Hx|Hx],
           (decide (tied lt (key y) k = true)) as [Hy|Hy]; try done.
  rewrite (tied_not_lt _ _ _ Hx Hy) in Hxy. done.
Qed.

(** ...and elements with tied keys are in their order of arrival. *)
Lemma sorted_reverse_stable k l :
  filter (λ y, tied lt (key y) k = true) (sorted_reverse key lt l)
  = filter (λ y, tied lt (key y) k = true) l.
Proof.
  induction l as [|x l IH]; simpl; [done|].
  fold (sorted_reverse key lt l).
  by rewrite insert_desc_stable, !(filter_cons _ x), IH.
Qed.

(** Descending order and stability leave one possible result: any other
    stable sort returns the same list. *)
Lemma sorted_stable_unique l1 l2 :
  StronglySorted (desc key lt) l1 →
  StronglySorted (desc key lt) l2 →
  (∀ k, filter (λ y, tied lt (key y) k = true) l1
        = filter (λ y, tied lt (key y) k = true) l2) →
  l1 = l2.
Proof.
  intros H1. revert l2. induction H1 as [|x l1 Hl1 IH Hx]; intros l2 H2 Hf.
  - destruct l2 as [|y l2]; [done|]. specialize (Hf (key y)).
    rewrite filter_cons_True in Hf by apply tied_refl. done.
  - destruct H2 as [|y l2 Hl2 Hy].
    { specialize (Hf (key x)).
      rewrite filter_cons_True in Hf by apply tied_refl. done. }
    assert (∀ l l' z w, StronglySorted (desc key lt) (z :: l) →
              filter (λ y, tied lt (key y) (key w) = true) (z :: l)
              = filter (λ y, tied lt (key y) (key w) = true) (w :: l') →
              lt (key z) (key w) = false) as Hhead.
    { intros l l' z w Hs Heq.
      assert (w ∈ z :: l) as Hin.
      { eapply (proj1 (list_elem_of_filter _ _ _)).
        rewrite Heq, filter_cons_True by apply tied_refl. left. }
      apply StronglySorted_inv in Hs as [_ Hz].
      apply elem_of_cons in Hin as [->|Hin]; [apply lt_irrefl|].
      by apply (proj1 (Forall_forall _ _) Hz). }
    assert (tied lt (key y) (key x) = true) as Hyx.
    { unfold tied. rewrite andb_true_iff, !negb_true_iff. split.
      - eapply (Hhead l2 l1 y x); [by constructor | by rewrite Hf].
      - eapply (Hhead l1 l2 x y); [by constructor | by rewrite Hf]. }
    assert (x = y) as <-.
    { specialize (Hf (key x)).
      rewrite !filter_cons_True in Hf by (done || apply tied_refl).
      congruence. }
    f_equal. apply IH; [done|]. intros k. specialize (Hf k).
    rewrite !(filter_cons _ x) in Hf.
    destruct (decide (tied lt (key x) k = true)); congruence.
Qed.
End SortedFacts.

(** * Facts about the sort keys *)

Section Keys.
Implicit Types (a b c : nat * Q).

Lemma Qltb_false (x y : Q) : Qltb x y = false ↔ (y <= x)%Q.
Proof. unfold Qltb. by rewrite negb_false_iff, Qle_bool_iff. Qed.


Lemma tuple_lt_false a b : tuple_lt a b = false ↔ key_ge a b.
Proof.
  unfold tuple_lt, key_ge. destruct (Nat.eqb_spec a.1 b.1) as [Heq|Hne]; simpl.
  - destruct (Qeq_bool a.2 b.2) eqn:Hq; simpl.
    + apply Qeq_bool_iff in Hq. split; [|done]. intros _. right.
      split; [done|]. rewrite Hq. apply Qle_refl.
    + rewrite Qltb_false. split; [by right | intros [?|[_ ?]]; [lia | done]].
  - rewrite Nat.ltb_ge. split; [intros ?; left; lia | intros [?|[? _]]; lia].
Qed.

Lemma key_ge_trans a b c : key_ge a b → key_ge b c → key_ge a c.
Proof.
  unfold key_ge. intros [?|[? Hab]] [?|[? Hbc]]; try (left; lia).
  right. split; [lia|]. by apply Qle_trans with b.2.
Qed.

Lemma key_ge_total a b : key_ge a b ∨ key_ge b a.
Proof.
  unfold key_ge. destruct (lt_eq_lt_dec a.1 b.1) as [[?|?]|?]; [by right; left| |by left; left].
  destruct (Qlt_le_dec a.2 b.2) as [Hlt|Hle].
  - right. right. split; [done | by apply Qlt_le_weak].
  - left. by right.
Qed.

Lemma tuple_lt_asym a b : tuple_lt a b = true → tuple_lt b a = false.
Proof.
  intros Hab. apply tuple_lt_false.
  destruct (key_ge_total a b) as [H|H]; [|done].
  apply tuple_lt_false in H. congruence.
Qed.

Lemma tuple_lt_neg_trans a b c :
  tuple_lt a b = false → tuple_lt b c = false → tuple_lt a c = false.
Proof. rewrite !tuple_lt_false. apply key_ge_trans. Qed.

(** Keys are tied exactly when both components are equal. *)
Lemma tied_tuple_lt a b : tied tuple_lt a b = key_eqb a b.
Proof.
  apply eq_true_iff_eq. unfold tied, key_eqb.
  rewrite !andb_true_iff, !negb_true_iff, !tuple_lt_false, Nat.eqb_eq, Qeq_bool_iff.
  unfold key_ge. split.
  - intros [[?|[? H1]] [?|[? H2]]]; try lia. split; [done|].
    by apply Qle_antisym.
  - intros [? Hq]. split; right; (split; [done|]); rewrite Hq; apply Qle_refl.
Qed.

(** [sum(1 for w in kws if ...)] counts the keywords that pass the test. *)
Lemma kw_score_length kws ch :
  kw_score kws ch = length (filter (λ w, contains w ch = true) kws).
Proof.
  unfold kw_score. induction (filter _ kws) as [|w l IH]; [done|].
  simpl. f_equal. exact IH.
Qed.
End Keys.

(** * The pipeline *)

Section KeywordFacts.
Variable isalnum : char → bool.

Lemma cleaned_same_or_space (text : str) :
  Forall2 same_or_space
    ((λ c, if keeps isalnum c then c else 0x20) <$> text)
    ((λ c, if (isalnum c || (c =? 0x5F)) || ((0x0600 <=? c) && (c <=? 0x06FF))
           then c else 0x20) <$> text).
Proof.
  induction text as [|c text IH]; [constructor|].
  rewrite !fmap_cons. constructor; [|exact IH].
  unfold keeps, same_or_space.
  destruct (isalnum c || (c =? 0x5F)); simpl; [by left|].
  destruct ((0x0600 <=? c) && (c <=? 0x06FF)).
  - rewrite orb_true_r. by left.
  - rewrite orb_false_r. destruct (isspace c) eqn:Hc; [by right | by left].
Qed.

Lemma strip_filter_tokens (toks : list str) :
  Forall token toks →
  strip <$> filter (λ w, (3 ≤ length (strip w))%nat) toks
  = filter (λ w, (3 ≤ length w)%nat) toks.
Proof.
  induction 1 as [|w toks Hw _ IH]; [done|].
  rewrite !filter_cons, (strip_token w Hw).
  destruct (decide (3 ≤ length w)%nat); [|done].
  by rewrite fmap_cons, IH, (strip_token w Hw).
Qed.

(** The code extracts the keywords that steps (a) to (e) describe. *)
Lemma keywords_ar_refines (text : str) :
  _keywords_ar isalnum text = keywords_spec isalnum text.
Proof.
  unfold _keywords_ar, keywords_spec.
  rewrite dict_fromkeys_dedup, strip_filter_tokens by apply split_tokens.
  unfold split. by rewrite (split_from_same_or_space _ _ _ (cleaned_same_or_space text)).
Qed.

Lemma keywords_ar_NoDup (text : str) : NoDup (_keywords_ar isalnum text).
Proof. rewrite keywords_ar_refines. apply NoDup_dedup_first. Qed.

Lemma keywords_ar_elem (text w : str) :
  w ∈ _keywords_ar isalnum text → token w ∧ (3 ≤ length w)%nat ∧ w ∉ AR_STOP.
Proof.
  rewrite keywords_ar_refines. unfold keywords_spec.
  rewrite elem_of_dedup_first, !list_elem_of_filter.
  intros (Hstop & Hlen & Hin). split; [|done].
  by eapply (proj1 (Forall_forall _ _)); [apply split_tokens | exact Hin].
Qed.

(** C7. For every question, keyword extraction replaces every character
    that is neither a word character nor in the Arabic block by a space,
    splits on white space, keeps the tokens of at least 3 characters,
    drops the stop words and removes duplicates keeping first occurrences
    in place; the extracted list never holds a token twice. *)
Theorem keywords_ar_spec (text : str) :
  _keywords_ar isalnum text = keywords_spec isalnum text
  ∧ NoDup (_keywords_ar isalnum text)
  ∧ ∀ w, w ∈ _keywords_ar isalnum text → (3 ≤ length w)%nat ∧ w ∉ AR_STOP.
Proof.
  split; [apply keywords_ar_refines|]. split; [apply keywords_ar_NoDup|].
  intros w Hw. by apply keywords_ar_elem in Hw as (_ & ? & ?).
Qed.

(** C6. The keyword score of a chunk is the number of distinct extracted
    keywords that occur in it as a literal substring: the matching
    keywords, each listed once, are as many as the score, whatever the
    number or the place of their occurrences. *)
Theorem kw_score_counts_distinct (question ch : str) :
  let kws := _keywords_ar isalnum question in
  ∃ matched : list str,
    NoDup matched
    ∧ (∀ w, w ∈ matched ↔ w ∈ kws ∧ occurs w ch)
    ∧ kw_score kws ch = length matched
    ∧ (kw_score kws ch ≤ length kws)%nat.
Proof.
  intros kws. exists (filter (λ w, contains w ch = true) kws).
  split; [apply NoDup_filter, keywords_ar_NoDup|]. split.
  - intros w. rewrite list_elem_of_filter, contains_spec. tauto.
  - rewrite kw_score_length. split; [done | apply length_filter].
Qed.
End KeywordFacts.

Section AnswerFacts.
Implicit Types (question top text ans : str) (retrieved rest : list str)
               (scores scs : list Q) (sc : Q).


Lemma gate_open sc : (DONT_KNOW_THRESHOLD <= sc)%Q → Qltb sc DONT_KNOW_THRESHOLD = false.
Proof. apply Qltb_false. Qed.

(** The extraction branch, once the gate is open on a non-empty list. *)
Lemma build_answer_extract question top rest sc scs :
  (DONT_KNOW_THRESHOLD <= sc)%Q →
  build_answer question (top :: rest) (sc :: scs)
  = Some (if (length (first_sentence splitters (strip top)) <? 18)%nat
          then strip (take 220 (strip top))
          else first_sentence splitters (strip top), sc).
Proof. intros Hsc. unfold build_answer. simpl. by rewrite (gate_open sc Hsc). Qed.

Lemma first_sentence_present (spl : list str) text (i : nat) (s : str) :
  spl !! i = Some s →
  contains s text = true →
  (∀ (j : nat) s', (j < i)%nat → spl !! j = Some s' → contains s' text = false) →
  first_sentence spl text = strip (split_head s text).
Proof.
  revert i. induction spl as [|s0 spl IH]; intros i Hi Hs Hbefore; [done|].
  destruct i as [|i]; simpl in *.
  - injection Hi as ->. by rewrite Hs.
  - rewrite (Hbefore 0%nat s0) by (done || lia).
    apply (IH i); [done..|]. intros j s' Hj Hs'.
    apply (Hbefore (S j)); [lia | done].
Qed.

Lemma first_sentence_absent (spl : list str) text :
  (∀ s, s ∈ spl → contains s text = false) → first_sentence spl text = text.
Proof.
  induction spl as [|s0 spl IH]; intros Habs; [done|]. simpl.
  rewrite (Habs s0) by left. apply IH. intros s Hs. apply Habs. by right.
Qed.

Lemma first_sentence_occurs (spl : list str) text :
  occurs (first_sentence spl text) text.
Proof.
  induction spl as [|s0 spl IH]; simpl.
  - by exists [], []; rewrite app_nil_r.
  - destruct (contains s0 text); [|done].
    eapply occurs_trans; [apply strip_occurs|].
    apply prefix_occurs, split_head_prefix.
Qed.


(** C3. In the extraction branch the candidate answer comes from the first
    entry of the delimiter list that occurs anywhere in the trimmed top
    chunk: the text is cut at the leftmost occurrence of that entry and the
    part before it is trimmed; with no delimiter in the text the candidate
    is the whole trimmed text. *)
Theorem first_sentence_priority question top rest sc scs :
  (DONT_KNOW_THRESHOLD <= sc)%Q →
  let text := strip top in
  ∃ cand : str,
    build_answer question (top :: rest) (sc :: scs)
    = Some (if (length cand <? 18)%nat then strip (take 220 text) else cand, sc)
    ∧ delimiter_rule splitters text cand.
Proof.
  intros Hsc text. exists (first_sentence splitters text).
  split; [by apply build_answer_extract|]. split.
  - intros i s Hi Hs Hbefore. apply contains_spec in Hs.
    destruct (split_head_present s text Hs) as (after & Htext & Hmin).
    exists (split_head s text), after. split; [done|]. split; [done|].
    apply (first_sentence_present _ _ i); [done..|].
    intros j s' Hj Hs'. apply contains_false. by apply (Hbefore j).
  - intros Habs. apply first_sentence_absent.
    intros s Hs. by apply contains_false, Habs.
Qed.

(** C4, as the code has it. In the extraction branch, a candidate shorter
    than 18 characters is replaced by the first 220 characters of the
    trimmed top chunk, trimmed once more; a candidate of 18 characters or
    more is the answer, so a trimmed chunk of 18 characters or more without
    any delimiter is returned whole. *)
Theorem build_answer_fallback question top rest sc scs :
  (DONT_KNOW_THRESHOLD <= sc)%Q →
  let text := strip top in
  let cand := first_sentence splitters text in
  ((length cand < 18)%nat →
     build_answer question (top :: rest) (sc :: scs) = Some (strip (take 220 text), sc))
  ∧ ((18 ≤ length cand)%nat →
     build_answer question (top :: rest) (sc :: scs) = Some (cand, sc))
  ∧ ((∀ s, s ∈ splitters → ¬ occurs s text) → (18 ≤ length text)%nat →
     build_answer question (top :: rest) (sc :: scs) = Some (text, sc)).
Proof.
  intros Hsc text cand. rewrite (build_answer_extract _ _ _ _ _ Hsc).
  fold text. fold cand.
  assert ((18 ≤ length cand)%nat →
          (if (length cand <? 18)%nat then strip (take 220 text) else cand) = cand) as Hlong.
  { intros Hlen. by rewrite (proj2 (Nat.ltb_ge _ _) Hlen). }
  split; [|split].
  - intros Hlen. by rewrite (proj2 (Nat.ltb_lt _ _) Hlen).
  - intros Hlen. by rewrite Hlong.
  - intros Habs Hlen.
    assert (cand = text) as Hcand.
    { apply first_sentence_absent. intros s Hs. by apply contains_false, Habs. }
    rewrite Hlong by (by rewrite Hcand). by rewrite Hcand.
Qed.

(** Both outcomes of the extraction are cut out of the top chunk. *)
Lemma extract_occurs top :
  occurs (if (length (first_sentence splitters (strip top)) <? 18)%nat
          then strip (take 220 (strip top))
          else first_sentence splitters (strip top)) top.
Proof.
  destruct (length _ <? 18)%nat.
  - eapply occurs_trans; [apply strip_occurs|].
    eapply occurs_trans; [apply prefix_occurs, prefix_take | apply strip_occurs].
  - eapply occurs_trans; [apply first_sentence_occurs | apply strip_occurs].
Qed.

(** C9. When the gate is open the answer is a contiguous substring of the
    top-ranked chunk. *)
Theorem build_answer_verbatim question top rest sc scs :
  (DONT_KNOW_THRESHOLD <= sc)%Q →
  ∃ ans, build_answer question (top :: rest) (sc :: scs) = Some (ans, sc)
         ∧ occurs ans top.
Proof.
  intros Hsc. eexists. split; [by apply build_answer_extract|].
  apply extract_occurs.
Qed.

(** The default score 0.0 is below the threshold. *)
Lemma gate_zero : Qltb 0 DONT_KNOW_THRESHOLD = true.
Proof. reflexivity. Qed.

Lemma build_answer_no_scores question retrieved :
  build_answer question retrieved [] = Some (REFUSAL, 0%Q).
Proof. unfold build_answer. cbn [best_score_of]. by rewrite gate_zero. Qed.

(** With as many scores as chunks, [retrieved[0]] is never out of range. *)
Lemma build_answer_paired question retrieved scores :
  length retrieved = length scores →
  is_Some (build_answer question retrieved scores)
  ∧ (retrieved = [] → build_answer question retrieved scores = Some (REFUSAL, 0%Q))
  ∧ (Qltb (best_score_of scores) DONT_KNOW_THRESHOLD = false →
     ∃ top rest, retrieved = top :: rest ∧ getitem retrieved 0 = Some top).
Proof.
  intros Hlen. destruct retrieved as [|top rest], scores as [|sc scs];
    [|discriminate Hlen..|].
  - rewrite build_answer_no_scores. split; [by eexists|]. split; [done|].
    cbn [best_score_of]. by rewrite gate_zero.
  - split; [|split; [done | by eauto]].
    unfold build_answer. cbn [best_score_of].
    destruct (Qltb sc _); by eexists.
Qed.
(** C10, as the code has it. The guard of [build_answer] tests [scores] and
    the extraction branch reads [retrieved[0]]: when the two lists have the
    same length, as the lists of [retrieve_chunks] do, the read is in range.
    An empty [retrieved] then means the score 0.0, below the threshold, and
    the refusal; the extraction branch is entered only with a first chunk to
    read. *)
Theorem build_answer_index_paired question retrieved scores :
  length retrieved = length scores →
  is_Some (build_answer question retrieved scores)
  ∧ (retrieved = [] →
       best_score_of scores = 0%Q
       ∧ build_answer question retrieved scores = Some (REFUSAL, 0%Q))
  ∧ (Qltb (best_score_of scores) DONT_KNOW_THRESHOLD = false →
       ∃ top rest, retrieved = top :: rest ∧ getitem retrieved 0 = Some top).
Proof.
intros Hlen.
destruct (build_answer_paired question retrieved scores Hlen) as (Hsome & Hnil & Hext).
split; [done|]. split; [|done].
intros ->. split; [|by apply Hnil]. by destruct scores.
Qed.
End AnswerFacts.

Section RerankFacts.
Implicit Types (kws : list str) (cands : list (str * Q)).

Lemma StronglySorted_weaken {A} (R R' : A → A → Prop) (l : list A) :
  (∀ x y, R x y → R' x y) → StronglySorted R l → StronglySorted R' l.
Proof.
  intros HR. induction 1 as [|x l _ IH Hx]; constructor; [done|].
  eapply Forall_impl; [exact Hx | by auto].
Qed.

Lemma insert_desc_ext {A K} (key key' : A → K) lt (x : A) (l : list A) :
  key x = key' x → (∀ y, y ∈ l → key y = key' y) →
  insert_desc key lt x l = insert_desc key' lt x l.
Proof.
  intros Hx. induction l as [|y l IH]; intros Hl; simpl; [done|].
  rewrite <- Hx, <- (Hl y) by left.
  rewrite IH; [done|]. intros z Hz. apply Hl. by right.
Qed.

Lemma sorted_reverse_ext {A K} (key key' : A → K) lt (l : list A) :
  (∀ y, y ∈ l → key y = key' y) →
  sorted_reverse key lt l = sorted_reverse key' lt l.
Proof.
  induction l as [|x l IH]; intros Hl; simpl; [done|].
  fold (sorted_reverse key lt l). fold (sorted_reverse key' lt l).
  rewrite IH by (intros y Hy; apply Hl; by right).
  apply insert_desc_ext; [apply Hl; left|].
  intros y Hy. apply Hl. right. by rewrite <- (sorted_reverse_perm key' lt l).
Qed.

Lemma reranked_tied (key : str * Q → nat * Q) (l : list (str * Q)) k :
  filter (λ y, tied tuple_lt (key y) k = true) l
  = filter (λ x, key_eqb (key x) k = true) l.
Proof. apply list_filter_iff. intros x. by rewrite tied_tuple_lt. Qed.

(** [ranked] is the stable descending arrangement of the candidates... *)
Lemma ranked_reranked kws cands :
  reranked (λ x, (kw_score kws x.1, x.2)) cands (ranked kws cands).
Proof.
  unfold reranked, ranked. split; [apply sorted_reverse_perm|]. split.
  - eapply StronglySorted_weaken;
      [|apply sorted_reverse_sorted; [apply tuple_lt_asym | apply tuple_lt_neg_trans]].
    intros x y Hxy. by apply tuple_lt_false.
  - intros k. rewrite <- !reranked_tied.
    apply sorted_reverse_stable, tuple_lt_neg_trans.
Qed.

(** ...and the only one. *)
Lemma reranked_unique kws cands (l : list (str * Q)) :
  reranked (λ x, (kw_score kws x.1, x.2)) cands l → l = ranked kws cands.
Proof.
  intros (_ & Hsorted & Hstable).
  destruct (ranked_reranked kws cands) as (_ & Hsorted' & Hstable').
  apply (sorted_stable_unique (λ x, (kw_score kws x.1, x.2)) tuple_lt
           tuple_lt_asym).
  - eapply StronglySorted_weaken; [|exact Hsorted].
    intros x y Hxy. by apply tuple_lt_false.
  - eapply StronglySorted_weaken; [|exact Hsorted'].
    intros x y Hxy. by apply tuple_lt_false.
  - intros k. rewrite !reranked_tied. by rewrite Hstable, Hstable'.
Qed.

(** Only the keyword scores of the candidates matter. *)
Lemma ranked_ext kws kws' cands :
  (∀ x, x ∈ cands → kw_score kws' x.1 = kw_score kws x.1) →
  ranked kws' cands = ranked kws cands.
Proof.
  intros Hkw. apply sorted_reverse_ext. intros x Hx. by rewrite (Hkw x Hx).
Qed.
End RerankFacts.

Section RetrievalFacts.
Variable isalnum : char → bool.
Variable chunks : list str.
Variable search : str → nat → list Q * list Z.

Implicit Types (question : str) (top_k search_k : nat)
               (scores : list Q) (idxs : list Z) (candidates retrieved : list str).

Lemma retrieve_chunks_Some question top_k search_k scores idxs candidates :
  search (u"query: " ++ strip question) search_k = (scores, idxs) →
  mapM (getitem chunks) idxs = Some candidates →
  let best := take top_k (ranked (_keywords_ar isalnum question) (zip candidates scores)) in
  retrieve_chunks isalnum chunks search question top_k search_k
  = Some (fst <$> best, snd <$> best).
Proof. intros Hsearch Hcands. unfold retrieve_chunks. by rewrite Hsearch, Hcands. Qed.

Lemma retrieve_chunks_inv question top_k search_k retrieved (ss : list Q) :
  retrieve_chunks isalnum chunks search question top_k search_k = Some (retrieved, ss) →
  ∃ scores idxs candidates,
    search (u"query: " ++ strip question) search_k = (scores, idxs)
    ∧ mapM (getitem chunks) idxs = Some candidates
    ∧ let best := take top_k (ranked (_keywords_ar isalnum question) (zip candidates scores)) in
      retrieved = fst <$> best ∧ ss = snd <$> best.
Proof.
  unfold retrieve_chunks.
  destruct (search _ search_k) as [scores idxs] eqn:Hsearch.
  destruct (mapM (getitem chunks) idxs) as [candidates|] eqn:Hcands; [|done].
  simpl. intros [= <- <-]. by exists scores, idxs, candidates.
Qed.

(** The two lists of a result have one length, which depends on [top_k]
    and on the length of the rows the index returned, not on the corpus. *)
Lemma retrieve_chunks_length question top_k search_k retrieved (ss : list Q) :
  retrieve_chunks isalnum chunks search question top_k search_k = Some (retrieved, ss) →
  length retrieved = length ss
  ∧ length retrieved
    = (top_k `min` (length (search (u"query: " ++ strip question) search_k).2
                    `min` length (search (u"query: " ++ strip question) search_k).1))%nat.
Proof.
  intros (scores & idxs & candidates & Hsearch & Hcands & -> & ->)%retrieve_chunks_inv.
  rewrite !length_fmap. split; [done|].
  rewrite length_take, Hsearch. cbn [fst snd]. unfold ranked.
  rewrite (Permutation_length (sorted_reverse_perm _ _ _)), length_zip.
  by rewrite (length_mapM _ _ _ Hcands).
Qed.

(** Over an index that returns as many rows as the corpus allows, all of
    them with labels of the corpus, the result has
    [min(top_k, search_k, len(chunks))] entries. *)
Lemma retrieve_chunks_unpadded question top_k search_k :
  length (search (u"query: " ++ strip question) search_k).1 = (search_k `min` length chunks)%nat →
  length (search (u"query: " ++ strip question) search_k).2 = (search_k `min` length chunks)%nat →
  Forall (λ i, (0 ≤ i < Z.of_nat (length chunks))%Z)
    (search (u"query: " ++ strip question) search_k).2 →
  ∃ retrieved (ss : list Q),
    retrieve_chunks isalnum chunks search question top_k search_k = Some (retrieved, ss)
    ∧ length retrieved = (top_k `min` (search_k `min` length chunks))%nat
    ∧ length ss = length retrieved.
Proof.
  intros Hs Hi Hvalid.
  destruct (search (u"query: " ++ strip question) search_k) as [scores idxs] eqn:Hsearch.
  cbn [fst snd] in *.
  assert (is_Some (mapM (getitem chunks) idxs)) as [candidates Hcands].
  { apply mapM_is_Some. eapply Forall_impl; [exact Hvalid|].
    intros i [Hi0 Hi1]. simpl. unfold getitem.
    rewrite (proj2 (Z.leb_le _ _) Hi0). apply lookup_lt_is_Some. lia. }
  pose proof (retrieve_chunks_Some question top_k search_k _ _ _ Hsearch Hcands) as Hret.
  cbv zeta in Hret. eexists _, _. split; [exact Hret|].
  destruct (retrieve_chunks_length _ _ _ _ _ Hret) as [Hlen1 Hlen2].
  rewrite <- Hlen1. split; [|done].
  rewrite Hlen2, Hsearch. cbn [fst snd]. lia.
Qed.

(** C5. The reranker puts the candidates in descending order of keyword
    score, then of similarity, candidates with equal keys staying in the
    order of the index's list; this arrangement is the only one with these
    properties and depends on the keywords through the keyword scores
    alone; the result is its first [top_k] entries. *)
Theorem rerank_sorted_stable question top_k search_k scores idxs candidates :
  search (u"query: " ++ strip question) search_k = (scores, idxs) →
  mapM (getitem chunks) idxs = Some candidates →
  let kws := _keywords_ar isalnum question in
  let key := λ x : str * Q, (kw_score kws x.1, x.2) in
  let input := zip candidates scores in
  let rk := ranked kws input in
  reranked key input rk
  ∧ (∀ l, reranked key input l → l = rk)
  ∧ (∀ kws', (∀ x, x ∈ input → kw_score kws' x.1 = kw_score kws x.1) →
             ranked kws' input = rk)
  ∧ retrieve_chunks isalnum chunks search question top_k search_k
    = Some (fst <$> take top_k rk, snd <$> take top_k rk).
Proof.
  intros Hsearch Hcands kws key input rk.
  split; [apply ranked_reranked|]. split; [apply reranked_unique|].
  split; [intros kws' Hkws'; by apply ranked_ext|].
  by apply (retrieve_chunks_Some _ _ _ scores idxs).
Qed.

(** On the lists that [retrieve_chunks] returns, which have one length,
    [build_answer] never reads [retrieved[0]] out of range. *)
Theorem build_answer_in_bounds question top_k search_k retrieved (ss : list Q) :
  retrieve_chunks isalnum chunks search question top_k search_k = Some (retrieved, ss) →
  is_Some (build_answer question retrieved ss)
  ∧ (retrieved = [] →
       best_score_of ss = 0%Q
       ∧ build_answer question retrieved ss = Some (REFUSAL, 0%Q))
  ∧ (Qltb (best_score_of ss) DONT_KNOW_THRESHOLD = false →
       ∃ top rest, retrieved = top :: rest ∧ getitem retrieved 0 = Some top).
Proof.
  intros [Hlen _]%retrieve_chunks_length.
  destruct (build_answer_paired question retrieved ss Hlen) as (Hsome & Hnil & Hext).
  split; [done|]. split; [|done].
  intros ->. split; [|by apply Hnil]. by destruct ss.
Qed.


(** The route fails only when a label of the index is outside the corpus. *)
Lemma ask_total (req_question : str) :
  is_Some (retrieve_chunks isalnum chunks search (strip req_question) TOP_K SEARCH_K) →
  is_Some (ask isalnum chunks search req_question).
Proof.
  intros [[retrieved ss] Hret]. unfold ask. rewrite Hret. simpl.
  destruct (retrieve_chunks_length _ _ _ _ _ Hret) as [Hlen _].
  destruct (build_answer_paired (strip req_question) retrieved ss Hlen)
    as [[[ans bs] ->] _].
  by eexists.
Qed.

Lemma getitem_elem_of (l : list str) (i : Z) (x : str) : getitem l i = Some x → x ∈ l.
Proof.
  unfold getitem. destruct (0 <=? i)%Z; [|destruct (_ <=? i)%Z; [|done]];
    apply list_elem_of_lookup_2.
Qed.

Lemma retrieve_chunks_from_corpus question top_k search_k retrieved (ss : list Q) :
  retrieve_chunks isalnum chunks search question top_k search_k = Some (retrieved, ss) →
  ∀ ch, ch ∈ retrieved → ch ∈ chunks.
Proof.
  intros (scores & idxs & candidates & _ & Hcands & -> & _)%retrieve_chunks_inv ch Hch.
  apply list_elem_of_fmap in Hch as ([ch' sc] & -> & Hin).
  apply elem_of_take in Hin as (i & Hin & _).
  apply list_elem_of_lookup_2 in Hin. unfold ranked in Hin.
  rewrite sorted_reverse_perm in Hin.
  apply elem_of_zip_l in Hin. simpl in *.
  apply mapM_Some in Hcands.
  apply list_elem_of_lookup_1 in Hin as [j Hj].
  destruct (Forall2_lookup_r _ _ _ _ _ Hcands Hj) as (lbl & _ & Hlbl).
  by apply getitem_elem_of in Hlbl.
Qed.

(** Past the gate, the answer of the route is text of some chunk of the
    corpus. *)
Lemma ask_answer_from_corpus (req_question : str) (resp : response) :
  ask isalnum chunks search req_question = Some resp →
  (DONT_KNOW_THRESHOLD <= best_score resp)%Q →
  ∃ ch, ch ∈ chunks ∧ occurs (answer resp) ch.
Proof.
  unfold ask.
  destruct (retrieve_chunks _ _ _ _ _ _) as [[retrieved ss]|] eqn:Hret; [|done]. simpl.
  destruct (build_answer _ retrieved ss) as [[ans bs]|] eqn:Hans; [|done]. simpl.
  intros [= <-]. simpl. intros Hbs. unfold build_answer in Hans.
  destruct (Qltb _ _) eqn:Hgate.
  { injection Hans as _ <-. apply gate_open in Hbs. congruence. }
  destruct retrieved as [|top rest]; [done|]. simpl in Hans.
  injection Hans as <- _. exists top. split; [|apply extract_occurs].
  eapply retrieve_chunks_from_corpus; [exact Hret | left].
Qed.
End RetrievalFacts.

(** * The pipeline on concrete corpora *)

Section Instances.

(** C1, the code on an index smaller than [search_k]. The index pads its
    rows to [search_k] entries with the label [-1], which [chunks[i]] reads
    as the last chunk: over a corpus of one chunk the result has 5 entries
    where [min(top_k, search_k, corpus_size)] is 1, and over a corpus of four
    chunks it has 5 entries, two of them padding that displaces the hit of
    label 2. *)
Theorem retrieve_chunks_small_corpus :
  retrieve_chunks isalnum_ascii corpus1 search1 question1 TOP_K SEARCH_K
  = Some (replicate 5 (u"عاصمة فرنسا هي باريس."), (9 # 10) :: replicate 4 NO_NEIGHBOUR)
  ∧ (TOP_K `min` (SEARCH_K `min` length corpus1))%nat = 1%nat
  ∧ retrieve_chunks isalnum_ascii corpus4 search4 question4 TOP_K SEARCH_K
    = Some ([ u"باريس عاصمة فرنسا."; u"برلين عاصمة ألمانيا."; u"روما عاصمة إيطاليا.";
              u"روما عاصمة إيطاليا."; u"روما عاصمة إيطاليا." ],
            [ 8 # 10; 8 # 10; 8 # 10; NO_NEIGHBOUR; NO_NEIGHBOUR ])
  ∧ (TOP_K `min` (SEARCH_K `min` length corpus4))%nat = 4%nat.
Proof. repeat split; vm_compute; reflexivity. Qed.


Lemma first_sentence_priority_witness :
  (DONT_KNOW_THRESHOLD <= 9 # 10)%Q
  ∧ ∃ cand : str,
      build_answer question1 [chunk_two_delimiters] [9 # 10]
      = Some (if (length cand <? 18)%nat
              then strip (take 220 (strip chunk_two_delimiters)) else cand, 9 # 10)
      ∧ delimiter_rule splitters (strip chunk_two_delimiters) cand.
Proof.
  split; [by vm_compute|].
  apply (first_sentence_priority question1 chunk_two_delimiters [] (9 # 10) []).
  by vm_compute.
Defined.

(** The delimiter that ranks first decides, not the one that comes first:
    the text is cut at its [.], past the earlier [!]. *)
Example first_sentence_not_positional :
  build_answer question1 [chunk_two_delimiters] [9 # 10]
  = Some (u"Wow! This is the capital of France", 9 # 10).
Proof. vm_compute. reflexivity. Qed.

(** C4 as stated fails on the code. A chunk of 300 letters without any
    delimiter is returned whole, not cut to 220 characters; and where the
    fallback applies, to a chunk whose 220th character is a space, the
    answer is the first 219 characters, not the first 220. *)
Lemma build_answer_fallback_counterexample :
  (length chunk300 = 300%nat
   ∧ Forall (λ s, contains s chunk300 = false) splitters
   ∧ build_answer [] [chunk300] [9 # 10] = Some (chunk300, 9 # 10)
   ∧ chunk300 ≠ take 220 (strip chunk300))
  ∧ (length (first_sentence splitters (strip chunk_short_head)) < 18)%nat
  ∧ build_answer [] [chunk_short_head] [9 # 10]
    = Some (take 219 chunk_short_head, 9 # 10)
  ∧ take 219 chunk_short_head ≠ take 220 (strip chunk_short_head).
Proof.
  split; [split; [|split; [|split]]|split; [|split]].
  - reflexivity.
  - repeat constructor.
  - vm_compute. reflexivity.
  - intros H. apply (f_equal length) in H. vm_compute in H. discriminate.
  - vm_compute. lia.
  - vm_compute. reflexivity.
  - intros H. apply (f_equal length) in H. vm_compute in H. discriminate.
Qed.

Lemma build_answer_fallback_witness :
  (DONT_KNOW_THRESHOLD <= 9 # 10)%Q
  ∧ let text := strip chunk_short_head in
    let cand := first_sentence splitters text in
    ((length cand < 18)%nat →
       build_answer [] [chunk_short_head] [9 # 10] = Some (strip (take 220 text), 9 # 10))
    ∧ ((18 ≤ length cand)%nat →
       build_answer [] [chunk_short_head] [9 # 10] = Some (cand, 9 # 10))
    ∧ ((∀ s, s ∈ splitters → ¬ occurs s text) → (18 ≤ length text)%nat →
       build_answer [] [chunk_short_head] [9 # 10] = Some (text, 9 # 10)).
Proof.
  split; [by vm_compute|].
  apply (build_answer_fallback [] chunk_short_head [] (9 # 10) []).
  by vm_compute.
Defined.

Lemma rerank_sorted_stable_witness :
  let scores := [9 # 10; 8 # 10; 8 # 10; 8 # 10] in
  let idxs := [2; 0; 1; 3]%Z in
  let candidates :=
    [ u"القاهرة مدينة كبيرة."; u"باريس عاصمة فرنسا.";
      u"برلين عاصمة ألمانيا."; u"روما عاصمة إيطاليا." ] in
  search4 (u"query: " ++ strip question4) 4 = (scores, idxs)
  ∧ mapM (getitem corpus4) idxs = Some candidates
  ∧ let kws := _keywords_ar isalnum_ascii question4 in
    let key := λ x : str * Q, (kw_score kws x.1, x.2) in
    let input := zip candidates scores in
    let rk := ranked kws input in
    reranked key input rk
    ∧ (∀ l, reranked key input l → l = rk)
    ∧ (∀ kws', (∀ x, x ∈ input → kw_score kws' x.1 = kw_score kws x.1) →
               ranked kws' input = rk)
    ∧ retrieve_chunks isalnum_ascii corpus4 search4 question4 3 4
      = Some (fst <$> take 3 rk, snd <$> take 3 rk).
Proof.
  intros scores idxs candidates.
  split; [reflexivity|]. split; [reflexivity|].
  apply (rerank_sorted_stable isalnum_ascii corpus4 search4 question4 3 4
           scores idxs candidates); reflexivity.
Defined.

(** Two candidates with the same similarity and the same keyword score
    keep the order of the index; the one with more keywords leads, and the
    most similar one, without keywords, is cut off. *)
Example rerank_ties :
  retrieve_chunks isalnum_ascii corpus4 search4 question4 3 4
  = Some ([ u"باريس عاصمة فرنسا."; u"برلين عاصمة ألمانيا."; u"روما عاصمة إيطاليا." ],
          [ 8 # 10; 8 # 10; 8 # 10 ]).
Proof. vm_compute. reflexivity. Qed.


Lemma build_answer_verbatim_witness :
  (DONT_KNOW_THRESHOLD <= 9 # 10)%Q
  ∧ ∃ ans, build_answer question1 corpus1 [9 # 10] = Some (ans, 9 # 10)
           ∧ occurs ans (u"عاصمة فرنسا هي باريس.").
Proof.
  split; [by vm_compute|].
  apply (build_answer_verbatim question1 (u"عاصمة فرنسا هي باريس.") [] (9 # 10) []).
  by vm_compute.
Defined.

Lemma build_answer_in_bounds_witness :
  let retrieved :=
    [ u"باريس عاصمة فرنسا."; u"برلين عاصمة ألمانيا."; u"روما عاصمة إيطاليا." ] in
  let ss := [ 8 # 10; 8 # 10; 8 # 10 ] in
  retrieve_chunks isalnum_ascii corpus4 search4 question4 3 4 = Some (retrieved, ss)
  ∧ is_Some (build_answer question4 retrieved ss)
  ∧ (retrieved = [] →
       best_score_of ss = 0%Q
       ∧ build_answer question4 retrieved ss = Some (REFUSAL, 0%Q))
  ∧ (Qltb (best_score_of ss) DONT_KNOW_THRESHOLD = false →
       ∃ top rest, retrieved = top :: rest ∧ getitem retrieved 0 = Some top).
Proof.
  intros retrieved ss. split; [vm_compute; reflexivity|].
  apply (build_answer_in_bounds isalnum_ascii corpus4 search4 question4 3 4).
  vm_compute. reflexivity.
Defined.

(** C10 as stated fails on the code. With no chunk and one score above the
    threshold, [best_score] is that score, not 0.0; the gate is open and
    [retrieved[0]] is out of range. *)
Lemma build_answer_index_counterexample :
  best_score_of [9 # 10] = 9 # 10
  ∧ Qltb (best_score_of [9 # 10]) DONT_KNOW_THRESHOLD = false
  ∧ getitem ([] : list str) 0 = None
  ∧ build_answer question1 [] [9 # 10] = None.
Proof. repeat split; reflexivity. Qed.

Lemma build_answer_index_paired_witness :
  length corpus1 = length [9 # 10]
  ∧ is_Some (build_answer question1 corpus1 [9 # 10])
  ∧ (corpus1 = [] →
       best_score_of [9 # 10] = 0%Q
       ∧ build_answer question1 corpus1 [9 # 10] = Some (REFUSAL, 0%Q))
  ∧ (Qltb (best_score_of [9 # 10]) DONT_KNOW_THRESHOLD = false →
       ∃ top rest, corpus1 = top :: rest ∧ getitem corpus1 0 = Some top).
Proof.
split; [reflexivity|].
apply (build_answer_index_paired question1 corpus1 [9 # 10]). reflexivity.
Defined.

(** The delimiters, by code point. *)
Example splitters_code_points :
  splitters = [[0x06D4]; [0x2E]; [0x21]; [0x061F]; [0x0A]].
Proof. reflexivity. Qed.

(** A question that repeats a word yields the word once. *)
Example keywords_repeated :
  _keywords_ar isalnum_ascii (u"باريس باريس") = [ u"باريس" ].
Proof. vm_compute. reflexivity. Qed.

(** The question mark of the Arabic block stays attached to its word. *)
Example keywords_question_mark :
  _keywords_ar isalnum_ascii question1 = [ u"عاصمة"; u"فرنسا؟" ].
Proof. vm_compute. reflexivity. Qed.

(** A keyword counts inside a longer word, and once however often it
    occurs. *)
Example kw_score_substring :
  kw_score [ u"فرن" ] (u"فرنسا") = 1%nat
  ∧ kw_score [ u"باريس" ] (u"باريس باريس باريس") = 1%nat.
Proof. split; vm_compute; reflexivity. Qed.

(** The first scenario of the specification, answer and score. *)
Example ask_capital :
  (λ r, (answer r, best_score r)) <$> ask isalnum_ascii corpus1 search1 question1
  = Some (u"عاصمة فرنسا هي باريس", 9 # 10).
Proof. vm_compute. reflexivity. Qed.
End Instances.

(** * Further facts about the built-ins *)

Section Trimming.
Implicit Types (s t ws : str) (c : char).

Lemma lstrip_idem s : lstrip (lstrip s) = lstrip s.
Proof.
induction s as [|c s IH]; [done|]. simpl.
destruct (isspace c) eqn:Hc; [done|]. simpl. by rewrite Hc.
Qed.

Lemma lstrip_snoc s c : isspace c = false → lstrip (s ++ [c]) = lstrip s ++ [c].
Proof.
intros Hc. induction s as [|d s IH]; simpl; [by rewrite Hc|].
by destruct (isspace d).
Qed.

Lemma lstrip_space ws s : Forall (λ c, isspace c = true) ws → lstrip (ws ++ s) = lstrip s.
Proof. induction 1 as [|c ws Hc _ IH]; simpl; [done | by rewrite Hc]. Qed.

Lemma lstrip_decomp s : ∃ ws, Forall (λ c, isspace c = true) ws ∧ s = ws ++ lstrip s.
Proof.
induction s as [|c s (ws & Hws & Hs)]; [by exists []|]. simpl.
destruct (isspace c) eqn:Hc.
- exists (c :: ws). split; [by constructor | simpl; congruence].
- by exists [].
Qed.

Lemma rstrip_decomp s : ∃ ws, Forall (λ c, isspace c = true) ws ∧ s = rstrip s ++ ws.
Proof.
destruct (lstrip_decomp (reverse s)) as (ws & Hws & Hs).
exists (reverse ws). split; [by apply Forall_reverse|].
unfold rstrip. by rewrite <- reverse_app, <- Hs, reverse_involutive.
Qed.

Lemma rstrip_idem s : rstrip (rstrip s) = rstrip s.
Proof. unfold rstrip. by rewrite reverse_involutive, lstrip_idem. Qed.

Lemma rstrip_cons c s : isspace c = false → rstrip (c :: s) = c :: rstrip s.
Proof.
intros Hc. unfold rstrip.
by rewrite reverse_cons, lstrip_snoc, reverse_app by done.
Qed.

(** Trimming the right end leaves a trimmed left end trimmed. *)
Lemma lstrip_rstrip s : lstrip s = s → lstrip (rstrip s) = rstrip s.
Proof.
destruct s as [|c s]; [done|]. simpl.
destruct (isspace c) eqn:Hc.
- intros Heq. pose proof (lstrip_suffix s) as Hsuf. rewrite Heq in Hsuf.
  apply suffix_length in Hsuf. simpl in Hsuf. lia.
- intros _. rewrite rstrip_cons by done. simpl. by rewrite Hc.
Qed.

(** [s.strip().strip()] is [s.strip()]. *)
Lemma strip_idem s : strip (strip s) = strip s.
Proof.
unfold strip. rewrite (lstrip_rstrip (lstrip s)) by apply lstrip_idem.
apply rstrip_idem.
Qed.

(** A string is its [strip] between two runs of white space. *)
Lemma strip_decomp s :
  ∃ ws1 ws2, Forall (λ c, isspace c = true) ws1 ∧ Forall (λ c, isspace c = true) ws2
             ∧ s = ws1 ++ strip s ++ ws2.
Proof.
destruct (lstrip_decomp s) as (ws1 & H1 & Hs1).
destruct (rstrip_decomp (lstrip s)) as (ws2 & H2 & Hs2).
exists ws1, ws2. split; [done|]. split; [done|].
unfold strip. by rewrite <- Hs2.
Qed.

Lemma strip_take_ge s (n : nat) : (length (strip s) ≤ n)%nat → strip (take n (strip s)) = strip s.
Proof. intros Hn. by rewrite take_ge, strip_idem. Qed.
End Trimming.

Section Splitting.
Implicit Types (s tok ws w : str) (c : char).

Lemma split_from_space_r tok ws :
  Forall (λ c, isspace c = true) ws → split_from tok ws = split_from tok [].
Proof.
intros Hws. revert tok. induction Hws as [|c ws Hc _ IH]; intros tok; [done|].
simpl. rewrite Hc. destruct tok; by rewrite IH.
Qed.

(** White space at either end of a string makes no token. *)
Lemma split_from_trailing tok s ws :
  Forall (λ c, isspace c = true) ws → split_from tok (s ++ ws) = split_from tok s.
Proof.
intros Hws. revert tok. induction s as [|c s IH]; intros tok.
- by apply split_from_space_r.
- simpl. destruct (isspace c); [destruct tok|]; by rewrite IH.
Qed.

Lemma split_leading ws s :
  Forall (λ c, isspace c = true) ws → split (ws ++ s) = split s.
Proof. unfold split. induction 1 as [|c ws Hc _ IH]; simpl; [done | by rewrite Hc]. Qed.

(** Every token is a contiguous piece of the string. *)
Lemma split_from_occurs tok s w :
  w ∈ split_from tok s → occurs w (reverse tok ++ s).
Proof.
revert tok. induction s as [|c s IH]; intros tok; simpl.
- destruct tok as [|d tok]; [by intros ?%elem_of_nil|].
  intros ->%list_elem_of_singleton. exists [], []. by rewrite app_nil_r.
- destruct (isspace c).
  + destruct tok as [|d tok].
    * intros (p & r & Hs)%IH. change (reverse [] ++ s) with s in Hs.
      rewrite Hs. by exists (c :: p), r.
    * intros [->|(p & r & Hs)%IH]%elem_of_cons.
      -- by exists [], (c :: s).
      -- change (reverse [] ++ s) with s in Hs.
         rewrite Hs. exists (reverse (d :: tok) ++ c :: p), r.
         by rewrite <- !(assoc_L (++)).
  + intros Hw%IH. by rewrite reverse_cons, <- (assoc_L (++)) in Hw.
Qed.

Lemma split_occurs s w : w ∈ split s → occurs w s.
Proof. intros Hw. by apply split_from_occurs in Hw. Qed.

(** A piece without white space of a text whose discarded characters were
    blanked is a piece of the text itself. *)
Lemma occurs_blanked (f : char → char) s w :
  (∀ c, f c = c ∨ f c = 0x20) →
  Forall (λ c, isspace c = false) w →
  occurs w (f <$> s) → occurs w s.
Proof.
intros Hf Hw (p & r & Heq).
apply fmap_app_inv in Heq as (p' & t & _ & Ht & ->).
symmetry in Ht. apply fmap_app_inv in Ht as (w' & r' & -> & _ & ->).
exists p', r'. do 2 f_equal.
induction w' as [|c w' IH]; [done|].
rewrite fmap_cons in Hw |- *. apply Forall_cons in Hw as [Hc Hw].
f_equal; [|by apply IH].
destruct (Hf c) as [Hid|Hsp]; [done|]. rewrite Hsp in Hc. discriminate Hc.
Qed.
End Splitting.

(** * Further properties of the pipeline *)

Section KeywordExtras.
Variable isalnum : char → bool.

Lemma blank_or_keep (f : char → bool) (c : char) :
  (if f c then c else 0x20) = c ∨ (if f c then c else 0x20) = 0x20.
Proof. destruct (f c); auto. Qed.

(** X1. Every extracted keyword is a contiguous piece of the question as
    typed, without white space in it. *)
Theorem keywords_ar_verbatim (text w : str) :
  w ∈ _keywords_ar isalnum text →
  occurs w text ∧ Forall (λ c, isspace c = false) w.
Proof.
intros Hw. destruct (keywords_ar_elem isalnum text w Hw) as [[_ Hns] _].
split; [|done]. revert Hw. unfold _keywords_ar.
rewrite dict_fromkeys_dedup, elem_of_dedup_first, list_elem_of_filter.
intros [_ (w' & -> & Hw')%list_elem_of_fmap].
apply list_elem_of_filter in Hw' as [_ Hw'].
pose proof (proj1 (Forall_forall _ _) (split_tokens _) _ Hw') as Htok.
rewrite (strip_token w' Htok) in Hns |- *.
apply split_occurs in Hw'.
eapply occurs_blanked; [|exact Hns|exact Hw'].
intros c. apply blank_or_keep.
Qed.

Lemma cleaned_space (ws : str) :
  Forall (λ c, isspace c = true) ws →
  Forall (λ c, isspace c = true) ((λ c, if keeps isalnum c then c else 0x20) <$> ws).
Proof.
induction 1 as [|c ws Hc _ IH]; [constructor|].
rewrite fmap_cons. constructor; [|done].
unfold keeps. rewrite Hc, orb_true_r. simpl. done.
Qed.

Lemma split_cleaned_strip (text : str) :
  split ((λ c, if keeps isalnum c then c else 0x20) <$> strip text)
  = split ((λ c, if keeps isalnum c then c else 0x20) <$> text).
Proof.
destruct (strip_decomp text) as (ws1 & ws2 & H1 & H2 & Htext).
rewrite Htext at 2. rewrite !fmap_app.
rewrite split_leading by by apply cleaned_space.
unfold split. by rewrite split_from_trailing by by apply cleaned_space.
Qed.

(** X2. White space around the question does not change the keywords. *)
Theorem keywords_ar_strip (text : str) :
  _keywords_ar isalnum (strip text) = _keywords_ar isalnum text.
Proof. unfold _keywords_ar. by rewrite split_cleaned_strip. Qed.

Lemma length_filter_mono {A} (P Q : A → Prop)
    `{!∀ x, Decision (P x), !∀ x, Decision (Q x)} (l : list A) :
  (∀ x, P x → Q x) → (length (filter P l) ≤ length (filter Q l))%nat.
Proof.
intros HPQ. induction l as [|x l IH]; [done|].
rewrite !filter_cons. destruct (decide (P x)) as [HP|HP].
- rewrite decide_True by auto. simpl. lia.
- destruct (decide (Q x)); simpl; lia.
Qed.

(** X3. A chunk that contains another scores at least as many keywords. *)
Theorem kw_score_monotone (kws : list str) (ch ch' : str) :
  occurs ch ch' → (kw_score kws ch ≤ kw_score kws ch')%nat.
Proof.
intros Hocc. rewrite !kw_score_length. apply length_filter_mono.
intros w. rewrite !contains_spec. intros Hw. by eapply occurs_trans.
Qed.
End KeywordExtras.

Section AnswerExtras.
Implicit Types (question top text ans : str) (retrieved rest : list str)
               (scores scs : list Q) (sc : Q).

Lemma occurs_length (s t : str) : occurs s t → (length s ≤ length t)%nat.
Proof. intros (p & r & ->). rewrite !length_app. lia. Qed.

Lemma first_sentence_trimmed (spl : list str) text :
  strip text = text → strip (first_sentence spl text) = first_sentence spl text.
Proof.
intros Htext. induction spl as [|s spl IH]; simpl; [done|].
destruct (contains s text); [apply strip_idem | done].
Qed.

Lemma REFUSAL_trimmed : strip REFUSAL = REFUSAL.
Proof. vm_compute. reflexivity. Qed.

Lemma extract_trimmed top :
  let ans := if (length (first_sentence splitters (strip top)) <? 18)%nat
             then strip (take 220 (strip top))
             else first_sentence splitters (strip top) in
  strip ans = ans.
Proof.
intros ans. unfold ans. destruct (length _ <? 18)%nat; [apply strip_idem|].
apply first_sentence_trimmed, strip_idem.
Qed.

(** X4. No answer starts or ends with white space: trimming an answer, the
    refusal included, changes nothing. *)
Theorem build_answer_trimmed question retrieved scores ans (bs : Q) :
  build_answer question retrieved scores = Some (ans, bs) → strip ans = ans.
Proof.
unfold build_answer. destruct (Qltb _ _).
- intros [= <- _]. apply REFUSAL_trimmed.
- destruct retrieved as [|top rest]; [discriminate 1|].
  intros [= <- _]. apply (extract_trimmed top).
Qed.

(** X5. From a top chunk of at most 220 characters once trimmed, an answer of
    fewer than 18 characters is the whole trimmed chunk; a trimmed chunk of
    fewer than 18 characters is returned whole, delimiters included. *)
Theorem build_answer_short question top rest sc scs :
  (DONT_KNOW_THRESHOLD <= sc)%Q →
  (length (strip top) ≤ 220)%nat →
  ∃ ans, build_answer question (top :: rest) (sc :: scs) = Some (ans, sc)
         ∧ ((length ans < 18)%nat → ans = strip top)
         ∧ ((length (strip top) < 18)%nat → ans = strip top).
Proof.
intros Hsc Hlen. eexists. split; [by apply build_answer_extract|].
pose proof (occurs_length _ _ (first_sentence_occurs splitters (strip top))) as Hcand.
destruct (Nat.ltb_spec (length (first_sentence splitters (strip top))) 18) as [Hlt|Hge].
- rewrite strip_take_ge by done. done.
- split; intros; lia.
Qed.

Lemma split_head_clean (sep s : str) :
  sep ≠ [] → contains sep s = true → ¬ occurs sep (split_head sep s).
Proof.
intros Hsep (r & Hs & Hmin)%split_head_present (p' & r' & Hocc).
specialize (Hmin p' (r' ++ sep ++ r)).
rewrite Hocc, !length_app in Hmin.
assert (0 < length sep)%nat by (destruct sep; [done | simpl; lia]).
enough (length p' + (length sep + length r') ≤ length p')%nat by lia.
apply Hmin. rewrite Hs at 1. rewrite Hocc. by rewrite <- !(assoc_L (++)).
Qed.

Lemma splitters_nonempty (i : nat) (s : str) : splitters !! i = Some s → s ≠ [].
Proof.
intros Hi%list_elem_of_lookup_2.
assert (Forall (λ s, s ≠ []) splitters) as Hall by (repeat constructor; done).
by apply (proj1 (Forall_forall _ _) Hall).
Qed.

(** X6. When the first sentence is the answer (18 characters or more), it
    holds neither the delimiter it was cut at nor any delimiter that ranks
    before it. *)
Theorem build_answer_no_delimiter question top rest sc scs (i : nat) (s : str) :
  (DONT_KNOW_THRESHOLD <= sc)%Q →
  splitters !! i = Some s →
  occurs s (strip top) →
  (∀ (j : nat) s', (j < i)%nat → splitters !! j = Some s' → ¬ occurs s' (strip top)) →
  (18 ≤ length (strip (split_head s (strip top))))%nat →
  ∃ ans, build_answer question (top :: rest) (sc :: scs) = Some (ans, sc)
         ∧ ans = strip (split_head s (strip top))
         ∧ ∀ (j : nat) s', (j ≤ i)%nat → splitters !! j = Some s' → ¬ occurs s' ans.
Proof.
intros Hsc Hi Hs Hbefore Hlen. apply contains_spec in Hs.
assert (first_sentence splitters (strip top) = strip (split_head s (strip top))) as Hcand.
{ apply (first_sentence_present _ _ i); [done..|].
  intros j s' Hj Hs'. apply contains_false. by apply (Hbefore j). }
eexists. split; [by apply build_answer_extract|].
rewrite Hcand, (proj2 (Nat.ltb_ge _ _) Hlen). split; [done|].
intros j s' Hj Hs' Hocc.
assert (occurs s' (split_head s (strip top))) as Hin
  by (eapply occurs_trans; [exact Hocc | apply strip_occurs]).
destruct (decide (j = i)) as [->|Hne].
- rewrite Hi in Hs'. injection Hs' as <-.
  by apply (split_head_clean s (strip top) (splitters_nonempty _ _ Hi) Hs).
- apply (Hbefore j s'); [lia | done |].
  eapply occurs_trans; [exact Hin | apply prefix_occurs, split_head_prefix].
Qed.
End AnswerExtras.

Section ScriptExtras.
Implicit Types (s t : str) (c m : char).

Lemma escapeHtml_cons m s :
  escapeHtml (m :: s) = (if escape_class m then escape_table m else [m]) ++ escapeHtml s.
Proof. done. Qed.

(** X7. Escaped text holds no less-than, greater-than, double quote or
    apostrophe. *)
Theorem escapeHtml_safe s :
  Forall (λ c, c ≠ 0x3C ∧ c ≠ 0x3E ∧ c ≠ 0x22 ∧ c ≠ 0x27) (escapeHtml s).
Proof.
induction s as [|m s IH]; [constructor|].
rewrite escapeHtml_cons. apply Forall_app. split; [|done].
unfold escape_class, escape_table.
destruct (N.eqb_spec m 0x26); [repeat constructor; done|].
destruct (N.eqb_spec m 0x3C); [repeat constructor; done|].
destruct (N.eqb_spec m 0x3E); [repeat constructor; done|].
destruct (N.eqb_spec m 0x22); [repeat constructor; done|].
destruct (N.eqb_spec m 0x27); [repeat constructor; done|].
simpl. repeat constructor; done.
Qed.

Ltac escape_cases m :=
  destruct (N.eqb_spec m 0x26) as [->|?];
  [|destruct (N.eqb_spec m 0x3C) as [->|?];
    [|destruct (N.eqb_spec m 0x3E) as [->|?];
      [|destruct (N.eqb_spec m 0x22) as [->|?];
        [|destruct (N.eqb_spec m 0x27) as [->|?]]]]].

Lemma escape_unit_inj m m' (x y : str) :
  (if escape_class m then escape_table m else [m]) ++ x
  = (if escape_class m' then escape_table m' else [m']) ++ y →
  m = m' ∧ x = y.
Proof.
unfold escape_class, escape_table.
escape_cases m; escape_cases m'; vm_compute; intros [=]; by subst.
Qed.

Lemma escape_unit_nonempty m :
  (0 < length (if escape_class m then escape_table m else [m]))%nat.
Proof.
unfold escape_class, escape_table. escape_cases m; vm_compute; lia.
Qed.

(** X8. Escaping loses nothing: two texts with the same escaped form are the
    same text. *)
Theorem escapeHtml_inj s t : escapeHtml s = escapeHtml t → s = t.
Proof.
revert t. induction s as [|m s IH]; intros [|m' t].
- done.
- rewrite escapeHtml_cons. intros Heq. exfalso.
  apply (f_equal length) in Heq. rewrite length_app in Heq.
  pose proof (escape_unit_nonempty m'). simpl in Heq. lia.
- rewrite escapeHtml_cons. intros Heq. exfalso.
  apply (f_equal length) in Heq. rewrite length_app in Heq.
  pose proof (escape_unit_nonempty m). simpl in Heq. lia.
- rewrite !escapeHtml_cons. intros [-> Heq]%escape_unit_inj.
  by rewrite (IH t Heq).
Qed.
End ScriptExtras.

Section RetrievalExtras.
Variable isalnum : char → bool.
Variable chunks : list str.
Variable search : str → nat → list Q * list Z.

Implicit Types (question : str) (top_k search_k : nat)
               (scores : list Q) (idxs : list Z) (candidates retrieved : list str).

Lemma getitem_None {A} (l : list A) (i : Z) :
  getitem l i = None ↔ (i < - Z.of_nat (length l) ∨ Z.of_nat (length l) ≤ i)%Z.
Proof.
unfold getitem. destruct (Z.leb_spec 0 i) as [Hi|Hi].
- rewrite lookup_ge_None. lia.
- destruct (Z.leb_spec (- Z.of_nat (length l)) i) as [Hi'|Hi'].
  + rewrite lookup_ge_None. lia.
  + split; [lia | done].
Qed.

Lemma mapM_getitem_None idxs :
  mapM (getitem chunks) idxs = None
  ↔ Exists (λ i, (i < - Z.of_nat (length chunks) ∨ Z.of_nat (length chunks) ≤ i)%Z) idxs.
Proof.
rewrite mapM_None, !Exists_exists. split.
- intros (i & Hi & Hnone). exists i. split; [done|]. by apply getitem_None.
- intros (i & Hi & Hout). exists i. split; [done|]. by apply getitem_None.
Qed.

(** X9. [retrieve_chunks] raises exactly when the index returns a label
    outside [-len(chunks), len(chunks)); with an empty corpus, as soon as it
    returns any label. *)
Theorem retrieve_chunks_raises question top_k search_k :
  retrieve_chunks isalnum chunks search question top_k search_k = None
  ↔ Exists (λ i, (i < - Z.of_nat (length chunks) ∨ Z.of_nat (length chunks) ≤ i)%Z)
      (search (u"query: " ++ strip question) search_k).2.
Proof.
unfold retrieve_chunks.
destruct (search _ search_k) as [scores idxs]. cbn [snd].
rewrite <- mapM_getitem_None. by destruct (mapM (getitem chunks) idxs).
Qed.

(** X10. The route fails exactly when the index, asked for [SEARCH_K]
    neighbours of the trimmed question, returns a label outside the corpus;
    [build_answer] adds no failure of its own. *)
Theorem ask_raises (req_question : str) :
  ask isalnum chunks search req_question = None
  ↔ Exists (λ i, (i < - Z.of_nat (length chunks) ∨ Z.of_nat (length chunks) ≤ i)%Z)
      (search (u"query: " ++ strip req_question) SEARCH_K).2.
Proof.
rewrite <- (strip_idem req_question).
assert (retrieve_chunks isalnum chunks search (strip req_question) TOP_K SEARCH_K = None
        ↔ mapM (getitem chunks)
            (search (u"query: " ++ strip (strip req_question)) SEARCH_K).2 = None) as Hret.
{ unfold retrieve_chunks. destruct (search _ SEARCH_K) as [scores idxs]. cbn [snd].
  by destruct (mapM (getitem chunks) idxs). }
rewrite <- mapM_getitem_None, <- Hret. split.
- intros Hask. destruct (retrieve_chunks _ _ _ _ TOP_K SEARCH_K) eqn:Heq; [|done].
  destruct (ask_total isalnum chunks search req_question) as [resp Hresp];
    [by rewrite Heq | congruence].
- intros Hnone. unfold ask. by rewrite Hnone.
Qed.

(** X11. A response carries the trimmed question, and as many scores as
    chunks, at most [TOP_K] of each. *)
Theorem ask_response_shape (req_question : str) (resp : response) :
  ask isalnum chunks search req_question = Some resp →
  question resp = strip req_question
  ∧ strip (question resp) = question resp
  ∧ length (resp_chunks resp) = length (scores resp)
  ∧ (length (resp_chunks resp) ≤ TOP_K)%nat.
Proof.
unfold ask.
destruct (retrieve_chunks _ _ _ _ _ _) as [[retrieved ss]|] eqn:Hret; [|done].
cbn [mbind option_bind].
destruct (build_answer _ retrieved ss) as [[ans bs]|]; [|done].
cbn [mbind option_bind]. intros [= <-]. cbn [question resp_chunks scores].
destruct (retrieve_chunks_length _ _ _ _ _ _ _ _ Hret) as [Hlen Hmin].
split; [done|]. split; [apply strip_idem|]. split; [done|].
rewrite Hmin. lia.
Qed.

(** The result is the first [top_k] entries of the ranking, side by side. *)
Lemma retrieve_chunks_lookup question top_k search_k retrieved (ss : list Q)
    scores idxs candidates (i : nat) (ch : str) (sc : Q) :
  search (u"query: " ++ strip question) search_k = (scores, idxs) →
  mapM (getitem chunks) idxs = Some candidates →
  retrieve_chunks isalnum chunks search question top_k search_k = Some (retrieved, ss) →
  retrieved !! i = Some ch → ss !! i = Some sc →
  ranked (_keywords_ar isalnum question) (zip candidates scores) !! i = Some (ch, sc).
Proof.
intros Hsearch Hcands Hret.
rewrite (retrieve_chunks_Some _ _ _ _ _ _ _ _ _ Hsearch Hcands) in Hret.
cbv zeta in Hret. injection Hret as <- <-.
rewrite !list_lookup_fmap.
destruct (take top_k _ !! i) as [[ch' sc']|] eqn:Hi; [|done].
simpl. intros [= <-] [= <-]. by apply lookup_take_Some in Hi as [Hi _].
Qed.

(** X12. A chunk of the result and the score beside it are what the index
    returned together: some position of its rows holds a label of that chunk
    and that score. *)
Theorem retrieve_chunks_pairs question top_k search_k retrieved (ss : list Q)
    (i : nat) (ch : str) (sc : Q) :
  retrieve_chunks isalnum chunks search question top_k search_k = Some (retrieved, ss) →
  retrieved !! i = Some ch → ss !! i = Some sc →
  ∃ (j : nat) (lbl : Z),
    (search (u"query: " ++ strip question) search_k).2 !! j = Some lbl
    ∧ getitem chunks lbl = Some ch
    ∧ (search (u"query: " ++ strip question) search_k).1 !! j = Some sc.
Proof.
intros Hret Hch Hsc.
destruct (retrieve_chunks_inv _ _ _ _ _ _ _ _ Hret)
  as (scores & idxs & candidates & Hsearch & Hcands & _).
pose proof (retrieve_chunks_lookup _ _ _ _ _ _ _ _ _ _ _ Hsearch Hcands Hret Hch Hsc) as Hrk.
apply list_elem_of_lookup_2 in Hrk. unfold ranked in Hrk.
rewrite sorted_reverse_perm in Hrk.
apply list_elem_of_lookup_1 in Hrk as [j Hj].
apply lookup_zip_Some in Hj as [Hc Hs].
apply mapM_Some in Hcands.
destruct (Forall2_lookup_r _ _ _ _ _ Hcands Hc) as (lbl & Hlbl & Hget).
exists j, lbl. by rewrite Hsearch.
Qed.

Lemma StronglySorted_lookup {A} (R : A → A → Prop) (l : list A) (i j : nat) (x y : A) :
  StronglySorted R l → l !! i = Some x → l !! j = Some y → (i < j)%nat → R x y.
Proof.
intros Hl. revert i j. induction Hl as [|z l _ IH Hz]; intros i j Hi Hj Hij; [done|].
destruct j as [|j]; [lia|]. destruct i as [|i]; simpl in *.
- injection Hi as <-. apply list_elem_of_lookup_2 in Hj.
  by apply (proj1 (Forall_forall _ _) Hz).
- apply (IH i j); [done..|lia].
Qed.

(** X13. In the result, a chunk with more keyword matches stands before any
    chunk with fewer, whatever their similarities. *)
Theorem retrieve_chunks_keywords_first question top_k search_k retrieved (ss : list Q)
    (i j : nat) (ch ch' : str) :
  retrieve_chunks isalnum chunks search question top_k search_k = Some (retrieved, ss) →
  retrieved !! i = Some ch → retrieved !! j = Some ch' →
  (kw_score (_keywords_ar isalnum question) ch'
   < kw_score (_keywords_ar isalnum question) ch)%nat →
  (i < j)%nat.
Proof.
intros Hret Hi Hj Hkw.
destruct (retrieve_chunks_inv _ _ _ _ _ _ _ _ Hret)
  as (scores & idxs & candidates & Hsearch & Hcands & _).
destruct (retrieve_chunks_length _ _ _ _ _ _ _ _ Hret) as [Hlen _].
destruct (lookup_lt_is_Some_2 ss i) as [sc Hsc];
  [rewrite <- Hlen; by eapply lookup_lt_Some|].
destruct (lookup_lt_is_Some_2 ss j) as [sc' Hsc'];
  [rewrite <- Hlen; by eapply lookup_lt_Some|].
pose proof (retrieve_chunks_lookup _ _ _ _ _ _ _ _ _ _ _ Hsearch Hcands Hret Hi Hsc) as Hri.
pose proof (retrieve_chunks_lookup _ _ _ _ _ _ _ _ _ _ _ Hsearch Hcands Hret Hj Hsc') as Hrj.
destruct (ranked_reranked (_keywords_ar isalnum question) (zip candidates scores))
  as (_ & Hsorted & _).
destruct (lt_eq_lt_dec i j) as [[Hlt| ->]|Hgt]; [done| |].
- rewrite Hri in Hrj. injection Hrj as <- _. lia.
- pose proof (StronglySorted_lookup _ _ _ _ _ _ Hsorted Hrj Hri Hgt) as Hge.
  unfold key_ge in Hge. simpl in Hge. lia.
Qed.

(** X14. The first entry of the result has the greatest sort key of all the
    candidates of the index: no candidate has more keyword matches, and none
    with as many has a higher similarity. The score the gate tests is that
    entry's similarity. *)
Theorem retrieve_chunks_top_maximal question top_k search_k
    (ch : str) (rest : list str) (sc : Q) (scs : list Q) (j : nat) (lbl : Z) (c : str) (s : Q) :
  retrieve_chunks isalnum chunks search question top_k search_k
  = Some (ch :: rest, sc :: scs) →
  (search (u"query: " ++ strip question) search_k).2 !! j = Some lbl →
  getitem chunks lbl = Some c →
  (search (u"query: " ++ strip question) search_k).1 !! j = Some s →
  key_ge (kw_score (_keywords_ar isalnum question) ch, sc)
         (kw_score (_keywords_ar isalnum question) c, s).
Proof.
intros Hret Hlbl Hc Hs.
destruct (retrieve_chunks_inv _ _ _ _ _ _ _ _ Hret)
  as (scores & idxs & candidates & Hsearch & Hcands & _).
rewrite Hsearch in Hlbl, Hs. cbn [fst snd] in Hlbl, Hs.
pose proof (retrieve_chunks_lookup _ _ _ _ _ _ _ _ 0%nat ch sc
              Hsearch Hcands Hret eq_refl eq_refl) as Hhead.
destruct (ranked_reranked (_keywords_ar isalnum question) (zip candidates scores))
  as (Hperm & Hsorted & _).
assert ((c, s) ∈ ranked (_keywords_ar isalnum question) (zip candidates scores)) as Hin.
{ rewrite Hperm. apply (list_elem_of_lookup_2 _ j). apply lookup_zip_Some.
  split; [|done]. apply mapM_Some in Hcands.
  destruct (Forall2_lookup_l _ _ _ _ _ Hcands Hlbl) as (c' & Hc' & Hget).
  simpl in Hget. congruence. }
apply list_elem_of_lookup_1 in Hin as [[|k] Hk].
- rewrite Hhead in Hk. injection Hk as <- <-. apply tuple_lt_false.
  apply lt_irrefl, tuple_lt_asym.
- apply (StronglySorted_lookup _ _ 0%nat (S k) _ _ Hsorted Hhead Hk). lia.
Qed.

Lemma zip_sorted_by_similarity (kws : list str) (k0 : nat) candidates scores :
  Forall (λ c, kw_score kws c = k0) candidates →
  StronglySorted (λ a b : Q, (b <= a)%Q) scores →
  StronglySorted (λ x y : str * Q, key_ge (kw_score kws x.1, x.2) (kw_score kws y.1, y.2))
    (zip candidates scores).
Proof.
intros Hkw. revert scores. induction Hkw as [|c cs Hc Hcs IH]; intros scores Hs.
- constructor.
- destruct Hs as [|s ss Hss Hs]; [constructor|]. simpl.
  constructor; [by apply IH|].
  apply Forall_forall. intros [c' s'] Hin.
  pose proof (elem_of_zip_l _ _ _ _ Hin) as Hc'.
  pose proof (elem_of_zip_r _ _ _ _ Hin) as Hs'.
  right. simpl. split.
  + rewrite Hc. symmetry. by apply (proj1 (Forall_forall _ _) Hcs).
  + by apply (proj1 (Forall_forall _ _) Hs).
Qed.

(** X15. When the candidates all have the same keyword score (so when the
    question yields no keyword) and the index returns them by descending
    similarity, reranking changes nothing: the result is the first [top_k]
    candidates in the order of the index. *)
Theorem retrieve_chunks_similarity_order question top_k search_k scores idxs candidates
    (k0 : nat) :
  search (u"query: " ++ strip question) search_k = (scores, idxs) →
  mapM (getitem chunks) idxs = Some candidates →
  Forall (λ c, kw_score (_keywords_ar isalnum question) c = k0) candidates →
  StronglySorted (λ a b : Q, (b <= a)%Q) scores →
  retrieve_chunks isalnum chunks search question top_k search_k
  = Some (fst <$> take top_k (zip candidates scores),
          snd <$> take top_k (zip candidates scores)).
Proof.
intros Hsearch Hcands Hkw Hsorted.
rewrite (retrieve_chunks_Some _ _ _ _ _ _ _ _ _ Hsearch Hcands). cbv zeta.
rewrite <- (reranked_unique (_keywords_ar isalnum question)
              (zip candidates scores) (zip candidates scores)); [done|].
split; [done|]. split; [|done].
by apply (zip_sorted_by_similarity _ k0).
Qed.

(** X16. [retrieve_chunks] gives the same result for a question and for the
    question trimmed: the query and the keywords both ignore surrounding
    white space. *)
Theorem retrieve_chunks_strip question top_k search_k :
  retrieve_chunks isalnum chunks search (strip question) top_k search_k
  = retrieve_chunks isalnum chunks search question top_k search_k.
Proof.
unfold retrieve_chunks, _keywords_ar.
by rewrite strip_idem, split_cleaned_strip.
Qed.
End RetrievalExtras.

(** * The further properties on concrete corpora *)

Section ExtraInstances.

Lemma keywords_ar_verbatim_witness :
  u"عاصمة" ∈ _keywords_ar isalnum_ascii question1
  ∧ occurs (u"عاصمة") question1
  ∧ Forall (λ c, isspace c = false) (u"عاصمة").
Proof.
split; [apply (bool_decide_unpack _); by vm_compute|].
apply (keywords_ar_verbatim isalnum_ascii question1 (u"عاصمة")).
apply (bool_decide_unpack _). by vm_compute.
Defined.

Lemma kw_score_monotone_witness :
  occurs (u"فرنسا") (u"عاصمة فرنسا")
  ∧ (kw_score [ u"عاصمة"; u"فرنسا" ] (u"فرنسا")
     ≤ kw_score [ u"عاصمة"; u"فرنسا" ] (u"عاصمة فرنسا"))%nat.
Proof.
split; [apply contains_spec; by vm_compute|].
apply kw_score_monotone. apply contains_spec. by vm_compute.
Defined.

Lemma build_answer_trimmed_witness :
  build_answer question1 corpus1 [9 # 10] = Some (u"عاصمة فرنسا هي باريس", 9 # 10)
  ∧ strip (u"عاصمة فرنسا هي باريس") = u"عاصمة فرنسا هي باريس".
Proof.
split; [by vm_compute|].
apply (build_answer_trimmed question1 corpus1 [9 # 10] _ (9 # 10)). by vm_compute.
Defined.

(** A chunk of two short sentences comes back whole, full stops included. *)
Lemma build_answer_short_witness :
  (DONT_KNOW_THRESHOLD <= 9 # 10)%Q
  ∧ (length (strip (u" نعم. لا. ")) ≤ 220)%nat
  ∧ ∃ ans, build_answer question1 [u" نعم. لا. "] [9 # 10] = Some (ans, 9 # 10)
           ∧ ((length ans < 18)%nat → ans = strip (u" نعم. لا. "))
           ∧ ((length (strip (u" نعم. لا. ")) < 18)%nat → ans = strip (u" نعم. لا. ")).
Proof.
split; [by vm_compute|]. split; [vm_compute; lia|].
apply (build_answer_short question1 (u" نعم. لا. ") [] (9 # 10) []);
  [by vm_compute | vm_compute; lia].
Defined.

Lemma build_answer_no_delimiter_witness :
  (DONT_KNOW_THRESHOLD <= 9 # 10)%Q
  ∧ splitters !! 1%nat = Some (u".")
  ∧ occurs (u".") (strip chunk_two_delimiters)
  ∧ ∃ ans, build_answer question1 [chunk_two_delimiters] [9 # 10] = Some (ans, 9 # 10)
           ∧ ans = strip (split_head (u".") (strip chunk_two_delimiters))
           ∧ ∀ (j : nat) s', (j ≤ 1)%nat → splitters !! j = Some s' → ¬ occurs s' ans.
Proof.
split; [by vm_compute|]. split; [reflexivity|].
split; [apply contains_spec; by vm_compute|].
apply (build_answer_no_delimiter question1 chunk_two_delimiters [] (9 # 10) [] 1%nat (u".")).
- by vm_compute.
- reflexivity.
- apply contains_spec. by vm_compute.
- intros [|j] s' Hj; [|lia]. intros [= <-]. apply contains_false. by vm_compute.
- vm_compute. lia.
Defined.

Lemma escapeHtml_inj_witness :
  escapeHtml (u"a<b & c") = escapeHtml (u"a<b & c") ∧ u"a<b & c" = u"a<b & c".
Proof. split; [reflexivity | apply escapeHtml_inj; reflexivity]. Defined.

(** The five characters and their entities. *)
Example escapeHtml_markup :
  escapeHtml (u"<b>'x' & y</b>") = u"&lt;b&gt;&#39;x&#39; &amp; y&lt;/b&gt;".
Proof. vm_compute. reflexivity. Qed.

(** A label past the end of the corpus makes the route fail. *)
Example ask_bad_label :
  ask isalnum_ascii corpus4 search_bad question4 = None.
Proof. vm_compute. reflexivity. Qed.

Lemma ask_response_shape_witness :
  ∃ resp : response,
    ask isalnum_ascii corpus4 search4 question_spaced = Some resp
    ∧ question resp = strip question_spaced
    ∧ strip (question resp) = question resp
    ∧ length (resp_chunks resp) = length (scores resp)
    ∧ (length (resp_chunks resp) ≤ TOP_K)%nat.
Proof.
eexists. split; [vm_compute; reflexivity|].
apply (ask_response_shape isalnum_ascii corpus4 search4 question_spaced).
vm_compute. reflexivity.
Defined.

Lemma retrieve_chunks_pairs_witness :
  let retrieved :=
    [ u"باريس عاصمة فرنسا."; u"برلين عاصمة ألمانيا."; u"روما عاصمة إيطاليا." ] in
  let ss := [ 8 # 10; 8 # 10; 8 # 10 ] in
  retrieve_chunks isalnum_ascii corpus4 search4 question4 3 4 = Some (retrieved, ss)
  ∧ retrieved !! 2%nat = Some (u"روما عاصمة إيطاليا.")
  ∧ ss !! 2%nat = Some (8 # 10)
  ∧ ∃ (j : nat) (lbl : Z),
      (search4 (u"query: " ++ strip question4) 4).2 !! j = Some lbl
      ∧ getitem corpus4 lbl = Some (u"روما عاصمة إيطاليا.")
      ∧ (search4 (u"query: " ++ strip question4) 4).1 !! j = Some (8 # 10).
Proof.
intros retrieved ss. split; [by vm_compute|]. split; [reflexivity|].
split; [reflexivity|].
apply (retrieve_chunks_pairs isalnum_ascii corpus4 search4 question4 3 4
         retrieved ss 2%nat); [by vm_compute | reflexivity..].
Defined.

Lemma retrieve_chunks_keywords_first_witness :
  let retrieved :=
    [ u"باريس عاصمة فرنسا."; u"برلين عاصمة ألمانيا."; u"روما عاصمة إيطاليا." ] in
  let ss := [ 8 # 10; 8 # 10; 8 # 10 ] in
  retrieve_chunks isalnum_ascii corpus4 search4 question4 3 4 = Some (retrieved, ss)
  ∧ (kw_score (_keywords_ar isalnum_ascii question4) (u"برلين عاصمة ألمانيا.")
     < kw_score (_keywords_ar isalnum_ascii question4) (u"باريس عاصمة فرنسا."))%nat
  ∧ (0 < 1)%nat.
Proof.
intros retrieved ss. split; [by vm_compute|]. split; [vm_compute; lia|].
apply (retrieve_chunks_keywords_first isalnum_ascii corpus4 search4 question4 3 4
         retrieved ss 0%nat 1%nat (u"باريس عاصمة فرنسا.") (u"برلين عاصمة ألمانيا."));
  [by vm_compute | reflexivity | reflexivity | vm_compute; lia].
Defined.

(** The most similar candidate, without a keyword, ranks below the first
    entry: the gate tests 0.8 where the index found 0.9. *)
Lemma retrieve_chunks_top_maximal_witness :
  retrieve_chunks isalnum_ascii corpus4 search4 question4 3 4
  = Some ([ u"باريس عاصمة فرنسا."; u"برلين عاصمة ألمانيا."; u"روما عاصمة إيطاليا." ],
          [ 8 # 10; 8 # 10; 8 # 10 ])
  ∧ (search4 (u"query: " ++ strip question4) 4).2 !! 0%nat = Some 2%Z
  ∧ getitem corpus4 2 = Some (u"القاهرة مدينة كبيرة.")
  ∧ (search4 (u"query: " ++ strip question4) 4).1 !! 0%nat = Some (9 # 10)
  ∧ key_ge (kw_score (_keywords_ar isalnum_ascii question4) (u"باريس عاصمة فرنسا."), 8 # 10)
           (kw_score (_keywords_ar isalnum_ascii question4) (u"القاهرة مدينة كبيرة."), 9 # 10).
Proof.
split; [by vm_compute|]. split; [reflexivity|]. split; [reflexivity|].
split; [reflexivity|].
apply (retrieve_chunks_top_maximal isalnum_ascii corpus4 search4 question4 3 4
         (u"باريس عاصمة فرنسا.") [ u"برلين عاصمة ألمانيا."; u"روما عاصمة إيطاليا." ]
         (8 # 10) [ 8 # 10; 8 # 10 ] 0%nat 2%Z);
  [by vm_compute | reflexivity..].
Defined.

Lemma retrieve_chunks_similarity_order_witness :
  let scores := [9 # 10; 8 # 10; 8 # 10; 8 # 10] in
  let idxs := [2; 0; 1; 3]%Z in
  let candidates :=
    [ u"القاهرة مدينة كبيرة."; u"باريس عاصمة فرنسا.";
      u"برلين عاصمة ألمانيا."; u"روما عاصمة إيطاليا." ] in
  search4 (u"query: " ++ strip question_stop) 4 = (scores, idxs)
  ∧ mapM (getitem corpus4) idxs = Some candidates
  ∧ Forall (λ c, kw_score (_keywords_ar isalnum_ascii question_stop) c = 0%nat) candidates
  ∧ StronglySorted (λ a b : Q, (b <= a)%Q) scores
  ∧ retrieve_chunks isalnum_ascii corpus4 search4 question_stop 3 4
    = Some (fst <$> take 3 (zip candidates scores), snd <$> take 3 (zip candidates scores)).
Proof.
intros scores idxs candidates.
assert (Forall (λ c, kw_score (_keywords_ar isalnum_ascii question_stop) c = 0%nat)
          candidates) as Hkw by (repeat constructor).
assert (StronglySorted (λ a b : Q, (b <= a)%Q) scores) as Hsorted
  by (repeat (constructor; try by vm_compute)).
split; [reflexivity|]. split; [reflexivity|]. split; [exact Hkw|].
split; [exact Hsorted|].
by apply (retrieve_chunks_similarity_order isalnum_ascii corpus4 search4 question_stop 3 4
            scores idxs candidates 0%nat).
Defined.

End ExtraInstances.
